(** * GithubReposScrapper (task2/main.py): throttled fetch orchestration

    A shallow embedding of [task2/main.py]: the JSON values the GitHub API
    returns, the exceptions the code can raise, the sliding-window
    [RateLimiter], the semaphore around [_make_request], the per-repository
    commit aggregation and [get_repositories].

    Conventions.
    - JSON numbers are modelled as integers ([Z]).
    - Time is counted in microseconds, the resolution of [datetime] and
      [timedelta].
    - An exception is a value of [exn]; only subclasses of [Exception] are
      modelled (task cancellation is not).
    - Logging has no effect on results and is left out. *)

From Stdlib Require Import ZArith Lia.
From stdpp Require Import base numbers list strings.

Local Open Scope Z_scope.

(** ** Python values and exceptions *)

#[warnings="-register-all"]
Inductive json : Type :=
| JNull
| JBool (b : bool)
| JNum (z : Z)
| JStr (s : string)
| JList (l : list json)
| JDict (d : list (string * json)).

Inductive exn : Type :=
| KeyError (key : string)
| TypeError
| AttributeError
| IndexError
| ValueError
| ClientError (what : string).

Definition exn_class (e : exn) : string :=
  match e with
  | KeyError _ => "KeyError"
  | TypeError => "TypeError"
  | AttributeError => "AttributeError"
  | IndexError => "IndexError"
  | ValueError => "ValueError"
  | ClientError _ => "ClientError"
  end.

Inductive result (A : Type) : Type :=
| Ok (a : A)
| Raise (e : exn).
Arguments Ok {A} a.
Arguments Raise {A} e.

(** Sequencing: an exception ends the computation. *)
Global Instance result_bind : MBind result :=
  fun A B (k : A -> result B) (r : result A) =>
    match r with
    | Ok a => k a
    | Raise e => Raise e
    end.

(** [bool(v)] *)
Definition truthy (v : json) : bool :=
  match v with
  | JNull => false
  | JBool b => b
  | JNum z => negb (z =? 0)
  | JStr s => negb (String.eqb s "")
  | JList l => match l with [] => false | _ => true end
  | JDict d => match d with [] => false | _ => true end
  end.

Fixpoint dict_lookup (key : string) (d : list (string * json)) : option json :=
  match d with
  | [] => None
  | (k, v) :: d' => if String.eqb k key then Some v else dict_lookup key d'
  end.

(** [v.get(key, default)]: only a dict has [get]. *)
Definition py_get (v : json) (key : string) (default : json) : result json :=
  match v with
  | JDict d => Ok (from_option id default (dict_lookup key d))
  | _ => Raise AttributeError
  end.

(** [v[key]] for a string key. *)
Definition py_getitem (v : json) (key : string) : result json :=
  match v with
  | JDict d =>
      match dict_lookup key d with
      | Some x => Ok x
      | None => Raise (KeyError key)
      end
  | _ => Raise TypeError
  end.

Fixpoint chars (s : string) : list json :=
  match s with
  | EmptyString => []
  | String c s' => JStr (String c EmptyString) :: chars s'
  end.

(** [iter(v)]: a list yields its elements, a dict its keys, a string its
    characters; nothing else is iterable. *)
Definition py_iter (v : json) : result (list json) :=
  match v with
  | JList l => Ok l
  | JDict d => Ok (map (fun kv => JStr (fst kv)) d)
  | JStr s => Ok (chars s)
  | _ => Raise TypeError
  end.

(** The class of a hashable value under [hash] and [==]: [True == 1] and
    [False == 0], so a bool and an int can be the same dict key. Lists and
    dicts are unhashable. *)
Inductive pykey : Type :=
| KNone
| KInt (z : Z)
| KStr (s : string).

Global Instance pykey_eq_dec : EqDecision pykey.
Proof. solve_decision. Defined.

Definition key_of (v : json) : option pykey :=
  match v with
  | JNull => Some KNone
  | JBool b => Some (KInt (if b then 1 else 0))
  | JNum z => Some (KInt z)
  | JStr s => Some (KStr s)
  | JList _ | JDict _ => None
  end.

Definition hashable (v : json) : bool :=
  match key_of v with Some _ => true | None => false end.

(** ** Data classes *)

Record RepositoryAuthorCommitsNum : Type := {
  author : json;
  commits_num : Z
}.

Record Repository : Type := {
  name : json;
  owner : json;
  position : Z;
  stars : json;
  watchers : json;
  forks : json;
  language : json;
  authors_commits_num_today : list RepositoryAuthorCommitsNum
}.

(** ** Commit aggregation: the loop of [_get_repository_commits_count_by_author] *)

(** [author_commits[author_name] += 1] on a [defaultdict(int)]; the dict
    keeps insertion order and the key object that was inserted first. *)
Fixpoint incr (k : json) (d : list (json * Z)) : list (json * Z) :=
  match d with
  | [] => [(k, 0 + 1)]
  | (k', c) :: d' =>
      if decide (key_of k' = key_of k) then (k', c + 1) :: d'
      else (k', c) :: incr k d'
  end.

(** [author_commits[a]] read back: what the dict holds for the key of [a],
    0 when there is no such key. *)
Fixpoint count_of (a : json) (d : list (json * Z)) : Z :=
  match d with
  | [] => 0
  | (k, c) :: d' => if decide (key_of k = key_of a) then c else count_of a d'
  end.

(** The guard and the name lookup of one iteration: [Ok None] when the guard
    skips the event, [Ok (Some n)] when it is counted under [n]. *)
Definition commit_author (commit : json) : result (option json) :=
  c ← py_get commit "commit" JNull;
  if truthy c then
    a ← py_get c "author" JNull;
    if truthy a then
      n ← py_get a "name" (JStr "Unknown");
      Ok (Some n)
    else Ok None
  else Ok None.

Fixpoint count_loop (commits : list json) (author_commits : list (json * Z))
  : result (list (json * Z)) :=
  match commits with
  | [] => Ok author_commits
  | commit :: rest =>
      match commit_author commit with
      | Raise e => Raise e
      | Ok None => count_loop rest author_commits
      | Ok (Some author_name) =>
          if hashable author_name
          then count_loop rest (incr author_name author_commits)
          else Raise TypeError
      end
  end.

Definition count_by_author (commits : list json)
  : result (list RepositoryAuthorCommitsNum) :=
  author_commits ← count_loop commits [];
  Ok (map (fun ac => {| author := fst ac; commits_num := snd ac |}) author_commits).

(** ** RateLimiter *)

Module RateLimiter.

(** [timedelta(seconds=1)] *)
Definition second : Z := 1000000.

Record t : Type := {
  max_requests_per_second : Z;
  requests : list Z
}.

(** [__init__]: the argument is stored as it comes. *)
Definition init (max_requests_per_second : Z) : result t :=
  Ok {| max_requests_per_second := max_requests_per_second; requests := [] |}.

(** The two readings of [datetime.now()] in one call, each given by its
    distance from where an ideal clock would be: the reading at the top of
    [acquire] is the previous reading plus [delay]; the reading after the
    sleep is the first one, plus the sleep that was asked for, plus
    [overshoot]. Both are signed, so any pair of readings can be written
    this way: [datetime.now()] is the wall clock, which can be set back, and
    [asyncio.sleep] runs on the loop's own clock and may end early. *)
Record tick : Type := {
  delay : Z;
  overshoot : Z
}.

(** The clock did not run backwards before the call, and the reading after
    the sleep is not earlier than the sleep asked for. *)
Definition punctual (tk : tick) : Prop := 0 <= delay tk /\ 0 <= overshoot tk.

Definition prune (now : Z) (reqs : list Z) : list Z :=
  filter (fun req_time => now - req_time < second) reqs.

(** One call of [acquire] started when the clock shows [clock]; returns the
    limiter and the clock reading that was appended. *)
Definition acquire (rl : t) (clock : Z) (tk : tick) : result (t * Z) :=
  let now := clock + delay tk in
  let reqs := prune now (requests rl) in
  if decide (max_requests_per_second rl <= Z.of_nat (length reqs)) then
    match reqs with
    | [] => Raise IndexError
    | oldest :: _ =>
        let sleep_time := second - (now - oldest) in
        let now' := now + (if decide (0 < sleep_time) then sleep_time else 0)
                        + overshoot tk in
        Ok ({| max_requests_per_second := max_requests_per_second rl;
               requests := prune now' reqs ++ [now'] |}, now')
    end
  else
    Ok ({| max_requests_per_second := max_requests_per_second rl;
           requests := reqs ++ [now] |}, now).

(** A sequence of calls, serialised by [self._lock]; the third component
    collects every grant timestamp ever appended. *)
Fixpoint acquire_all (rl : t) (clock : Z) (granted : list Z) (ticks : list tick)
  : result (t * Z * list Z) :=
  match ticks with
  | [] => Ok (rl, clock, granted)
  | tk :: ticks' =>
      match acquire rl clock tk with
      | Raise e => Raise e
      | Ok (rl', now) => acquire_all rl' now (granted ++ [now]) ticks'
      end
  end.

(** Grants inside the trailing window [(T - 1s, T]]. *)
Definition in_window (T : Z) (granted : list Z) : list Z :=
  filter (fun a => T - second < a /\ a <= T) granted.

(** The limiter agrees with the history of its grants: [requests] is
    the part of [granted] younger than one second at the last reading of
    the clock, it is no longer than the limit, nothing was granted in the
    future, and no window is over the limit. *)
Definition consistent (rl : t) (clock : Z) (granted : list Z) : Prop :=
  requests rl = prune clock granted /\
  Z.of_nat (length (requests rl)) <= max_requests_per_second rl /\
  Forall (fun a => a <= clock) granted /\
  forall T, Z.of_nat (length (in_window T granted)) <= max_requests_per_second rl.

End RateLimiter.

(** ** The semaphore around [_make_request] *)

Module Gate.

(** Where one call of [_make_request] stands. *)
Inductive pc : Type :=
| Waiting        (* before [async with self._semaphore] *)
| Holding        (* slot taken, inside [self._rate_limiter.acquire()] *)
| InTransport    (* slot taken, inside [self._session.request(...)] *)
| Returned       (* left the [async with] with a value *)
| Failed.        (* left the [async with] with an exception *)

Global Instance pc_eq_dec : EqDecision pc.
Proof. solve_decision. Defined.

Record state : Type := {
  value : Z;             (* the semaphore's counter *)
  calls : list pc
}.

Inductive event : Type :=
| Enter (i : nat)          (* the semaphore lets call [i] in *)
| Cleared (i : nat)          (* the rate limiter returns *)
| LimiterRaise (i : nat)   (* the rate limiter raises *)
| Respond (i : nat)        (* the response was decoded *)
| Fault (i : nat).         (* the transport or the decoding raised *)

Definition move (s : state) (i : nat) (from to : pc) (dv : Z) : option state :=
  match calls s !! i with
  | Some p =>
      if decide (p = from)
      then Some {| value := value s + dv; calls := <[i := to]> (calls s) |}
      else None
  | None => None
  end.

Definition step (s : state) (ev : event) : option state :=
  match ev with
  | Enter i => if decide (0 < value s) then move s i Waiting Holding (-1) else None
  | Cleared i => move s i Holding InTransport 0
  | LimiterRaise i => move s i Holding Failed 1
  | Respond i => move s i InTransport Returned 1
  | Fault i => move s i InTransport Failed 1
  end.

Fixpoint run (s : state) (evs : list event) : option state :=
  match evs with
  | [] => Some s
  | ev :: evs' =>
      match step s ev with
      | Some s' => run s' evs'
      | None => None
      end
  end.

(** [asyncio.Semaphore(max_concurrent_requests)] and [n] calls not yet started. *)
Definition start (max_concurrent_requests : Z) (n : nat) : state :=
  {| value := max_concurrent_requests; calls := replicate n Waiting |}.

Definition count (p : pc) (s : state) : Z :=
  Z.of_nat (length (filter (fun q => q = p) (calls s))).

Definition in_transport (s : state) : Z := count InTransport s.

Definition holders (s : state) : Z := count Holding s + count InTransport s.

Definition finished (p : pc) : Prop := p = Returned \/ p = Failed.

(** What the history says about a call that holds a slot: [evs] are the
    events so far, [s] the state they led to. *)
Definition entered (evs : list event) (s : state) : Prop :=
  forall i,
    (calls s !! i = Some Holding -> Enter i ∈ evs) /\
    (calls s !! i = Some InTransport -> Enter i ∈ evs /\ Cleared i ∈ evs).

End Gate.

(** ** Construction *)

Record Semaphore : Type := { sem_value : Z }.

(** [asyncio.Semaphore(value)] raises [ValueError] for a negative value and
    nothing else. *)
Definition Semaphore_init (value : Z) : result Semaphore :=
  if decide (value < 0) then Raise ValueError else Ok {| sem_value := value |}.

Record GithubReposScrapper : Type := {
  _semaphore : Semaphore;
  _rate_limiter : RateLimiter.t
}.

(** [GithubReposScrapper.__init__]; creating the [ClientSession] opens no
    connection and is left out. *)
Definition GithubReposScrapper_init (max_concurrent_requests requests_per_second : Z)
  : result GithubReposScrapper :=
  sem ← Semaphore_init max_concurrent_requests;
  rl ← RateLimiter.init requests_per_second;
  Ok {| _semaphore := sem; _rate_limiter := rl |}.

(** ** Requests and the world they are sent to *)

(** The two calls the scrapper makes; the endpoint string and the [params]
    dict are kept in structured form. [ListCommits owner repo] stands for
    [repos/{owner}/{repo}/commits] with [since] one day back and
    [per_page = 100]. *)
Inductive request : Type :=
| SearchRepositories (per_page : Z)
| ListCommits (owner repo : json).

(** What lies below [_make_request]: the shared rate limiter and the HTTP
    session, each a transition on the state of the outside world. *)
Record server (world : Type) : Type := {
  rate_acquire : world -> result () * world;
  session_request : request -> world -> result json * world
}.
Arguments rate_acquire {world} _ _.
Arguments session_request {world} _ _ _.

(** The world together with the requests that reached the session. *)
Record state (world : Type) : Type := {
  env : world;
  sent : list request
}.
Arguments env {world} _.
Arguments sent {world} _.

(** The dict appended to [repositories_data]. *)
Record repo_data : Type := {
  d_name : json;
  d_owner : json;
  d_position : Z;
  d_stars : json;
  d_watchers : json;
  d_forks : json;
  d_language : json
}.

(** The body of the first loop of [get_repositories] for one record. *)
Definition read_record (position : Z) (repo : json) : result (repo_data * (json * json)) :=
  owner_obj ← py_get repo "owner" (JDict []);
  owner ← py_get owner_obj "login" (JStr "");
  name ← py_get repo "name" (JStr "");
  stars ← py_get repo "stargazers_count" (JNum 0);
  watchers ← py_get repo "watchers_count" (JNum 0);
  forks ← py_get repo "forks_count" (JNum 0);
  language ← py_get repo "language" (JStr "Unknown");
  Ok ({| d_name := name; d_owner := owner; d_position := position;
         d_stars := stars; d_watchers := watchers; d_forks := forks;
         d_language := language |}, (owner, name)).

(** [for position, repo_data in enumerate(top_repos, position)]: the entries
    of [repositories_data] and the arguments of the tasks, in order. *)
Fixpoint read_records (position : Z) (top_repos : list json)
  : result (list repo_data * list (json * json)) :=
  match top_repos with
  | [] => Ok ([], [])
  | repo :: rest =>
      entry ← read_record position repo;
      others ← read_records (position + 1) rest;
      Ok (entry.1 :: others.1, entry.2 :: others.2)
  end.

(** The second loop of [get_repositories] for one pair of the [zip]. *)
Definition assemble (rd : repo_data)
    (commits_result : result (list RepositoryAuthorCommitsNum)) : Repository :=
  {| name := d_name rd; owner := d_owner rd; position := d_position rd;
     stars := d_stars rd; watchers := d_watchers rd; forks := d_forks rd;
     language := d_language rd;
     authors_commits_num_today :=
       match commits_result with
       | Ok counts => counts
       | Raise _ => []
       end |}.

(** ** [asyncio.gather] *)

Section Gather.
Context {St T A : Type} (run : T -> St -> A * St).

(** The tasks run one after the other in an order the scheduler picks: at
    each step the head of [sched] selects one of the pending tasks, which
    makes its call and finishes. Every list of numbers is a schedule. *)
Fixpoint run_pending (n : nat) (sched : list nat) (pending : list (nat * T)) (s : St)
  : list (nat * A) * St :=
  match n, pending with
  | S n', first :: _ =>
      let k := (hd 0%nat sched `mod` length pending)%nat in
      let '(i, task) := nth k pending first in
      let '(a, s1) := run task s in
      let '(finished, s2) := run_pending n' (tl sched) (delete k pending) s1 in
      ((i, a) :: finished, s2)
  | _, _ => ([], s)
  end.

Fixpoint slot (i : nat) (finished : list (nat * A)) : option A :=
  match finished with
  | [] => None
  | (j, a) :: rest => if decide (j = i) then Some a else slot i rest
  end.

(** The results come back in the order of the tasks, whatever the order in
    which they finished. *)
Definition gather (sched : list nat) (tasks : list T) (s : St) : list A * St :=
  let '(finished, s') := run_pending (length tasks) sched (imap pair tasks) s in
  (omap (fun i => slot i finished) (seq 0 (length tasks)), s').
End Gather.

(** ** GithubReposScrapper *)

Section Scrapper.
Context {world : Type} (srv : server world).

(** The semaphore of [_make_request] delays the call and changes no result
    (see [Gate]); the rate limiter may raise; a request that reaches the
    session is recorded. *)
Definition _make_request (req : request) (s : state world) : result json * state world :=
  match rate_acquire srv (env s) with
  | (Raise e, w) => (Raise e, {| env := w; sent := sent s |})
  | (Ok _, w) =>
      let '(response, w') := session_request srv req w in
      (response, {| env := w'; sent := sent s ++ [req] |})
  end.

Definition _get_top_repositories (limit : Z) (s : state world)
  : result json * state world :=
  let '(data, s') := _make_request (SearchRepositories limit) s in
  (data ← data; py_getitem data "items", s').

Definition _get_repository_commits (owner repo : json) (s : state world)
  : result (list json) * state world :=
  match _make_request (ListCommits owner repo) s with
  | (Ok commits, s') =>
      (Ok (match commits with JList l => l | _ => [] end), s')
  | (Raise _, s') => (Ok [], s')
  end.

Definition _get_repository_commits_count_by_author (owner repo : json) (s : state world)
  : result (list RepositoryAuthorCommitsNum) * state world :=
  let '(commits, s') := _get_repository_commits owner repo s in
  (commits ← commits; count_by_author commits, s').

Definition get_repositories (sched : list nat) (limit : Z) (s : state world)
  : result (list Repository) * state world :=
  match _get_top_repositories limit s with
  | (Raise e, s1) => (Raise e, s1)
  | (Ok top_repos, s1) =>
      match records ← py_iter top_repos; read_records 1 records with
      | Raise e => (Raise e, s1)
      | Ok (repositories_data, tasks) =>
          let '(commits_results, s2) :=
            gather (fun t => _get_repository_commits_count_by_author t.1 t.2)
                   sched tasks s1 in
          (Ok (zip_with assemble repositories_data commits_results), s2)
      end
  end.

(** What the session answered to each task's request in the same run, in
    the order of the tasks; empty when no task was started. *)
Definition commit_fetches (sched : list nat) (limit : Z) (s : state world)
  : list (result json) :=
  match _get_top_repositories limit s with
  | (Ok top_repos, s1) =>
      match records ← py_iter top_repos; read_records 1 records with
      | Ok (_, tasks) =>
          (gather (fun t => _make_request (ListCommits t.1 t.2)) sched tasks s1).1
      | Raise _ => []
      end
  | (Raise _, _) => []
  end.

(** The records the listing call returned; empty when it failed. *)
Definition listed (limit : Z) (s : state world) : list json :=
  match _get_top_repositories limit s with
  | (Ok top_repos, _) =>
      match py_iter top_repos with Ok records => records | Raise _ => [] end
  | (Raise _, _) => []
  end.
End Scrapper.

(** What a task makes of the answer to its request, and what ends up in the
    [Repository]. *)
Definition counts_of_fetch (fetched : result json)
  : result (list RepositoryAuthorCommitsNum) :=
  match fetched with
  | Ok (JList commits) => count_by_author commits
  | _ => Ok []
  end.


Definition is_commit_request (req : request) : bool :=
  match req with
  | ListCommits _ _ => true
  | SearchRepositories _ => false
  end.

(** ** Notions the statements below use *)

(** The names under which the loop counts, one per counted event, in the
    order of the events. *)
Fixpoint counted_names (commits : list json) : result (list json) :=
  match commits with
  | [] => Ok []
  | commit :: rest =>
      match commit_author commit with
      | Raise e => Raise e
      | Ok None => counted_names rest
      | Ok (Some author_name) =>
          if hashable author_name
          then names ← counted_names rest; Ok (author_name :: names)
          else Raise TypeError
      end
  end.

(** The display name of the author an event carries: the [name] of a
    non-empty [commit.author] object, "Unknown" when that object has no
    [name]; nothing when the event has no such object. *)
Definition named_author (event : json) : option json :=
  match event with
  | JDict d =>
      match dict_lookup "commit" d with
      | Some (JDict c) =>
          match dict_lookup "author" c with
          | Some (JDict (field :: fields)) =>
              Some (from_option id (JStr "Unknown") (dict_lookup "name" (field :: fields)))
          | _ => None
          end
      | _ => None
      end
  | _ => None
  end.

(** First occurrences, in order; two names are the same when Python's dict
    takes them for the same key. *)
Fixpoint first_seen (names : list json) : list json :=
  match names with
  | [] => []
  | n :: rest => n :: filter (fun m => key_of m <> key_of n) (first_seen rest)
  end.

Definition occurrences (a : json) (names : list json) : Z :=
  Z.of_nat (length (filter (fun n => key_of n = key_of a) names)).

Definition total (out : list RepositoryAuthorCommitsNum) : Z :=
  foldr (fun r acc => commits_num r + acc) 0 out.

(** A listing record the first loop of [get_repositories] can read: a dict
    whose [owner], when present, is a dict. *)
Definition readable_record (repo : json) : Prop :=
  match repo with
  | JDict d =>
      match dict_lookup "owner" d with
      | Some (JDict _) | None => True
      | Some _ => False
      end
  | _ => False
  end.

(** ** Canned servers for the examples *)

Definition canned (listing : result json) (commits : json -> json -> result json)
  : server () :=
  {| rate_acquire := fun w => (Ok (), w);
     session_request := fun req w =>
       (match req with
        | SearchRepositories _ => listing
        | ListCommits owner repo => commits owner repo
        end, w) |}.

Definition fresh : state () := {| env := (); sent := [] |}.

Definition record_of (repo_name : string) (extra : list (string * json)) : json :=
  JDict (("name", JStr repo_name) :: ("stargazers_count", JNum 5) :: extra).

Definition owned : list (string * json) := [("owner", JDict [("login", JStr "octo")])].

Definition event_by (author_name : string) : json :=
  JDict [("sha", JStr "c0ffee");
         ("commit", JDict [("author", JDict [("name", JStr author_name)])])].

Definition listing_ABC : result json :=
  Ok (JDict [("total_count", JNum 3);
             ("items", JList [record_of "A" owned; record_of "B" owned; record_of "C" owned])]).

(** The commit fetch for B fails; A and C have two commits by x and one by y. *)
Definition commits_B_fails (owner repo : json) : result json :=
  if decide (key_of repo = Some (KStr "B"))
  then Raise (ClientError "connection reset")
  else Ok (JList [event_by "x"; event_by "y"; event_by "x"]).

Definition server_B_fails : server () := canned listing_ABC commits_B_fails.

(** GitHub's answer when the request is refused: no [items]. *)
Definition server_refused : server () :=
  canned (Ok (JDict [("message", JStr "API rate limit exceeded")]))
         (fun _ _ => Ok (JList [])).

Definition server_down : server () :=
  canned (Raise (ClientError "cannot connect")) (fun _ _ => Ok (JList [])).

Definition server_null_owner : server () :=
  canned (Ok (JDict [("items", JList [record_of "A" [("owner", JNull)]])]))
         (fun _ _ => Ok (JList [])).

Definition server_null_language : server () :=
  canned (Ok (JDict [("items", JList [record_of "A" (("language", JNull) :: owned)])]))
         (fun _ _ => Ok (JList [])).

Definition server_no_owner_no_name : server () :=
  canned (Ok (JDict [("items", JList [JDict [("stargazers_count", JNum 5)]])]))
         (fun _ _ => Ok (JList [])).

(** An event whose [commit.author] is null, as GitHub sends for a commit
    without author data. *)
Definition event_without_author : json :=
  JDict [("sha", JStr "c0ffee"); ("commit", JDict [("author", JNull); ("message", JStr "m")])].

Definition event_without_name : json :=
  JDict [("commit", JDict [("author", JDict [("email", JStr "a@b.c")])])].

(** ** ClickHouseConnectionManager (task3/save_to_clickhouse.py) *)

(** [a or b] *)
Definition py_or (a b : json) : json := if truthy a then a else b.

Module ClickHouse.

(** The tuples handed to the client, one constructor per table. The string
    [f"{repo.owner}/{repo.name}"] is kept as the pair it is built from. *)
Inductive row : Type :=
| RepositoryRow (name owner stars watchers forks language : json) (updated : Z)
| PositionRow (date : Z) (repo : json * json) (position : Z)
| AuthorCommitsRow (date : Z) (repo : json * json) (author : json) (commits_num : Z).

(** What can end a save: an exception of the client or of [range], or the
    [Exception] of [_save_in_batches] for an empty batch. *)
Inductive failure : Type :=
| Raised (e : exn)
| EmptyBatch (table : string).

Inductive outcome : Type :=
| Done
| Failed (f : failure).

(** What the saver does to the outside: a call of [client.execute] with an
    INSERT for [table] and [columns], or the pause of [asyncio.sleep(0.1)]. *)
Inductive effect : Type :=
| Executed (table columns : string) (batch : list row)
| Slept.

Record client (world : Type) : Type := {
  execute : string -> string -> list row -> world -> result () * world
}.
Arguments execute {world} _ _ _ _ _.

Record session (world : Type) : Type := {
  db : world;
  effects : list effect
}.
Arguments db {world} _.
Arguments effects {world} _.

(** The indices [range(i, stop, step)] runs through for a positive step. *)
Fixpoint range_up (fuel : nat) (i stop step : Z) : list Z :=
  match fuel with
  | O => []
  | S fuel' => if decide (i < stop) then i :: range_up fuel' (i + step) stop step else []
  end.

(** [range(0, stop, step)] for [stop >= 0]: a zero step is a [ValueError], a
    negative step gives nothing. *)
Definition range_from_zero (stop step : Z) : result (list Z) :=
  if decide (step = 0) then Raise ValueError
  else if decide (step < 0) then Ok []
  else Ok (range_up (Z.to_nat stop) 0 stop step).

(** [data[i:j]] for [0 <= i <= j]. *)
Definition py_slice {A : Type} (data : list A) (i j : Z) : list A :=
  take (Z.to_nat (j - i)) (drop (Z.to_nat i) data).

Section Saver.
Context {world : Type} (cl : client world) (batch_size : Z).

(** The body of the loop of [_save_in_batches], for the indices still to come. *)
Fixpoint save_loop (starts : list Z) (data : list row) (table columns : string)
    (s : session world) : outcome * session world :=
  match starts with
  | [] => (Done, s)
  | i :: rest =>
      match py_slice data i (i + batch_size) with
      | [] => (Failed (EmptyBatch table), s)
      | batch =>
          match execute cl table columns batch (db s) with
          | (Raise e, w) =>
              (Failed (Raised e),
               {| db := w; effects := effects s ++ [Executed table columns batch] |})
          | (Ok _, w) =>
              let s1 := {| db := w; effects := effects s ++ [Executed table columns batch] |} in
              let s2 := if decide (i + batch_size < Z.of_nat (length data))
                        then {| db := db s1; effects := effects s1 ++ [Slept] |}
                        else s1 in
              save_loop rest data table columns s2
          end
      end
  end.

Definition _save_in_batches (data : list row) (table columns : string)
    (s : session world) : outcome * session world :=
  match data with
  | [] => (Done, s)
  | _ =>
      match range_from_zero (Z.of_nat (length data)) batch_size with
      | Raise e => (Failed (Raised e), s)
      | Ok starts => save_loop starts data table columns s
      end
  end.

(** Handing ready-made pieces to the client one after the other, with a
    pause between two pieces, up to the first failure. *)
Fixpoint send_chunks (pieces : list (list row)) (table columns : string)
    (s : session world) : outcome * session world :=
  match pieces with
  | [] => (Done, s)
  | piece :: rest =>
      match execute cl table columns piece (db s) with
      | (Raise e, w) =>
          (Failed (Raised e),
           {| db := w; effects := effects s ++ [Executed table columns piece] |})
      | (Ok _, w) =>
          let s1 := {| db := w; effects := effects s ++ [Executed table columns piece] |} in
          let s2 := match rest with
                    | [] => s1
                    | _ => {| db := db s1; effects := effects s1 ++ [Slept] |}
                    end in
          send_chunks rest table columns s2
      end
  end.

(** What the client answers to the pieces when they are handed to it one
    after the other, starting in world [w]. *)
Fixpoint responses (pieces : list (list row)) (table columns : string) (w : world)
  : list (result ()) :=
  match pieces with
  | [] => []
  | piece :: rest =>
      let '(answer, w') := execute cl table columns piece w in
      answer :: responses rest table columns w'
  end.

(** The client answers every call without raising. *)
Definition never_fails : Prop :=
  forall table columns batch w, exists w', execute cl table columns batch w = (Ok (), w').

Definition repository_rows (current_time : Z) (repositories : list Repository) : list row :=
  map (fun repo =>
         RepositoryRow (name repo) (owner repo) (stars repo) (watchers repo) (forks repo)
                       (py_or (language repo) (JStr "Unknown")) current_time)
      repositories.

Definition position_rows (current_date : Z) (repositories : list Repository) : list row :=
  map (fun repo => PositionRow current_date (owner repo, name repo) (position repo))
      repositories.

Definition author_rows (current_date : Z) (repositories : list Repository) : list row :=
  flat_map (fun repo =>
              map (fun author_commit =>
                     AuthorCommitsRow current_date (owner repo, name repo)
                                      (author author_commit) (commits_num author_commit))
                  (authors_commits_num_today repo))
           repositories.

(** [save_repositories_data]; [current_time] and [current_date] are what
    [datetime.now()] and [date.today()] return. The handler logs and raises
    again, so a failure passes through unchanged. *)
Definition save_repositories_data (current_time current_date : Z)
    (repositories : list Repository) (s : session world) : outcome * session world :=
  match repositories with
  | [] => (Done, s)
  | _ =>
      let repositories_data := repository_rows current_time repositories in
      let positions_data := position_rows current_date repositories in
      let authors_commits_data := author_rows current_date repositories in
      match _save_in_batches repositories_data "repositories"
              "(name, owner, stars, watchers, forks, language, updated)" s with
      | (Failed f, s1) => (Failed f, s1)
      | (Done, s1) =>
          match _save_in_batches positions_data "repositories_positions"
                  "(date, repo, position)" s1 with
          | (Failed f, s2) => (Failed f, s2)
          | (Done, s2) =>
              _save_in_batches authors_commits_data "repositories_authors_commits"
                "(date, repo, author, commits_num)" s2
          end
      end
  end.
End Saver.

(** [main]: scrape ten repositories, then save them in batches of a
    hundred; any exception is logged and swallowed. *)
Definition main {web store : Type} (srv : server web) (cl : client store)
    (sched : list nat) (current_time current_date : Z)
    (s : state web) (c : session store) : state web * session store :=
  match get_repositories srv sched 10 s with
  | (Raise _, s1) => (s1, c)
  | (Ok repositories, s1) =>
      (s1, (save_repositories_data cl 100 current_time current_date repositories c).2)
  end.

(** The batches handed to the client, and the pauses, in a list of effects. *)
Definition batches (tr : list effect) : list (list row) :=
  omap (fun e => match e with Executed _ _ batch => Some batch | Slept => None end) tr.

Definition tables (tr : list effect) : list string :=
  omap (fun e => match e with Executed table _ _ => Some table | Slept => None end) tr.

Definition pauses (tr : list effect) : nat :=
  length (omap (fun e => match e with Slept => Some () | Executed _ _ _ => None end) tr).

(** Cutting a list into pieces of [size], the last one possibly shorter. *)
Fixpoint chunks {A : Type} (fuel : nat) (size : nat) (data : list A) : list (list A) :=
  match fuel with
  | O => []
  | S fuel' =>
      match data with
      | [] => []
      | _ => take size data :: chunks fuel' size (drop size data)
      end
  end.

Definition chunks_of {A : Type} (size : nat) (data : list A) : list (list A) :=
  chunks (length data) size data.

(** The INSERTs for the given pieces with a pause between two of them. *)
Fixpoint paced (table columns : string) (pieces : list (list row)) : list effect :=
  match pieces with
  | [] => []
  | piece :: rest =>
      Executed table columns piece ::
        match rest with
        | [] => []
        | _ => Slept :: paced table columns rest
        end
  end.

(** A client that stores everything and never fails. *)
Definition accepting : client (list row) :=
  {| execute := fun _ _ batch w => (Ok (), w ++ batch) |}.

(** A client that fails on its [n]-th call, counted from 0. *)
Definition failing_at (n : nat) : client nat :=
  {| execute := fun _ _ _ w =>
       (if decide (w = n) then Raise (ClientError "insert failed") else Ok (), S w) |}.

Definition empty_session {world : Type} (w : world) : session world :=
  {| db := w; effects := [] |}.

Definition sample_rows : list row :=
  map (fun i => PositionRow 0 (JStr "octo", JStr "A") i) [1; 2; 3; 4; 5].

End ClickHouse.

(** * Properties of the commit aggregation *)

Section Aggregation.
Implicit Types (d : list (json * Z)) (k a n : json) (names : list json).

Local Abbreviation keys d := (map (fun kc : json * Z => key_of kc.1) d).
Local Abbreviation tally names d := (foldl (fun acc n => incr n acc) d names).

Lemma incr_fst k d :
  map fst (incr k d) =
    if decide (key_of k ∈ keys d) then map fst d else map fst d ++ [k].
Proof.
  induction d as [|[k' c] d IH]; simpl; [done|].
  destruct (decide (key_of k' = key_of k)) as [E|N]; simpl.
  - rewrite decide_True; [done|]. rewrite E. left.
  - rewrite IH. destruct (decide (key_of k ∈ keys d)) as [I|I].
    + rewrite decide_True; [done|]. by right.
    + rewrite decide_False; [done|].
      intros [?|?]%elem_of_cons; [congruence|done].
Qed.

Lemma incr_keys k d :
  keys (incr k d) =
    if decide (key_of k ∈ keys d) then keys d else keys d ++ [key_of k].
Proof.
  induction d as [|[k' c] d IH]; simpl; [done|].
  destruct (decide (key_of k' = key_of k)) as [E|N]; simpl.
  - rewrite decide_True; [done|]. rewrite E. left.
  - rewrite IH. destruct (decide (key_of k ∈ keys d)) as [I|I].
    + rewrite decide_True; [done|]. by right.
    + rewrite decide_False; [done|].
      intros [?|?]%elem_of_cons; [congruence|done].
Qed.

Lemma incr_positive k d :
  Forall (fun kc => 1 <= kc.2) d -> Forall (fun kc => 1 <= kc.2) (incr k d).
Proof.
  induction 1 as [|[k' c] d Hc Hd IH]; simpl.
  - repeat constructor. simpl. lia.
  - destruct (decide (key_of k' = key_of k)); constructor; simpl in *; try lia; done.
Qed.

Lemma incr_NoDup k d : NoDup (keys d) -> NoDup (keys (incr k d)).
Proof.
  intros Hd. rewrite incr_keys. destruct (decide (key_of k ∈ keys d)); [done|].
  apply NoDup_app. split_and!; [done| |apply NoDup_singleton].
  intros x Hx ->%list_elem_of_singleton. done.
Qed.


(** The loop is the fold of [incr] over the counted names. *)
Lemma count_loop_tally commits names d :
  counted_names commits = Ok names ->
  count_loop commits d = Ok (tally names d).
Proof.
  revert names d. induction commits as [|c commits IH]; intros names d; simpl.
  - by intros [= <-].
  - destruct (commit_author c) as [[n|]|e]; [|by apply IH|done].
    destruct (hashable n); [|done].
    destruct (counted_names commits) as [ns|e] eqn:E; simpl; [|done].
    intros [= <-]. simpl. by apply IH.
Qed.

Lemma count_loop_names commits d out :
  count_loop commits d = Ok out ->
  exists names, counted_names commits = Ok names /\ Forall (fun n => hashable n = true) names.
Proof.
  revert d. induction commits as [|c commits IH]; intros d; simpl.
  - intros _. by exists [].
  - destruct (commit_author c) as [[n|]|e]; [|by apply IH|done].
    destruct (hashable n) eqn:Hn; [|done].
    intros (names & -> & Hall)%IH. exists (n :: names). simpl. by split; [|constructor].
Qed.

Lemma tally_positive names d :
  Forall (fun kc => 1 <= kc.2) d -> Forall (fun kc => 1 <= kc.2) (tally names d).
Proof.
  revert d. induction names as [|n names IH]; intros d Hd; simpl; [done|].
  by apply IH, incr_positive.
Qed.

Lemma tally_NoDup names d : NoDup (keys d) -> NoDup (keys (tally names d)).
Proof.
  revert d. induction names as [|n names IH]; intros d Hd; simpl; [done|].
  by apply IH, incr_NoDup.
Qed.


(** Keys appear in the order in which they were first counted. *)
Lemma tally_fst names d :
  map fst (tally names d) =
    map fst d ++ filter (fun m => key_of m ∉ keys d) (first_seen names).
Proof.
  revert d. induction names as [|n names IH]; intros d; simpl.
  - by rewrite filter_nil, app_nil_r.
  - rewrite IH, incr_fst, incr_keys, filter_cons.
    destruct (decide (key_of n ∈ keys d)) as [I|I].
    + rewrite decide_False by (intros ?; done). f_equal.
      symmetry. apply list_filter_filter_l. intros m Hm E. by rewrite E in Hm.
    + rewrite decide_True by done. rewrite <- app_assoc. simpl. do 2 f_equal.
      rewrite list_filter_filter. apply list_filter_iff. intros m.
      rewrite elem_of_app, list_elem_of_singleton. tauto.
Qed.

Lemma count_of_incr a k d :
  count_of a (incr k d) =
    count_of a d + (if decide (key_of k = key_of a) then 1 else 0).
Proof.
  induction d as [|[k' c] d IH]; simpl.
  - destruct (decide (key_of k = key_of a)); lia.
  - destruct (decide (key_of k' = key_of k)) as [E|N]; simpl.
    + rewrite <- E. destruct (decide (key_of k' = key_of a)); lia.
    + destruct (decide (key_of k' = key_of a)) as [E'|N']; [|done].
      rewrite decide_False by congruence. lia.
Qed.

Lemma count_of_tally a names d :
  count_of a (tally names d) = count_of a d + occurrences a names.
Proof.
  revert d. unfold occurrences.
  induction names as [|n names IH]; intros d; simpl; [lia|].
  rewrite IH, count_of_incr, filter_cons.
  destruct (decide (key_of n = key_of a)); simpl; lia.
Qed.

Lemma count_of_elem k c d :
  NoDup (keys d) -> (k, c) ∈ d -> count_of k d = c.
Proof.
  induction d as [|[k' c'] d IH]; simpl; [by intros _ ?%elem_of_nil|].
  intros [Hk Hd]%NoDup_cons [E|I]%elem_of_cons.
  - injection E as -> ->. by rewrite decide_True.
  - rewrite decide_False; [by apply IH|].
    intros E. apply Hk. rewrite E.
    apply (list_elem_of_fmap_2 (fun kc : json * Z => key_of kc.1) _ _ I).
Qed.

Lemma total_incr k d :
  foldr (fun kc acc => kc.2 + acc) 0 (incr k d) = foldr (fun kc acc => kc.2 + acc) 0 d + 1.
Proof.
  induction d as [|[k' c] d IH]; simpl; [lia|].
  destruct (decide (key_of k' = key_of k)); simpl; lia.
Qed.

Lemma total_tally names d :
  foldr (fun kc acc => kc.2 + acc) 0 (tally names d) =
    foldr (fun kc acc => kc.2 + acc) 0 d + Z.of_nat (length names).
Proof.
  revert d. induction names as [|n names IH]; intros d; simpl length; simpl foldl; [lia|].
  rewrite IH, total_incr. lia.
Qed.

Lemma filter_all {A} (P : A -> Prop) `{!forall x, Decision (P x)} (l : list A) :
  (forall x, P x) -> filter P l = l.
Proof.
  intros HP. induction l as [|x l IH]; [done|].
  by rewrite filter_cons_True, IH.
Qed.

Lemma total_records d :
  total (map (fun ac : json * Z => {| author := ac.1; commits_num := ac.2 |}) d) =
    foldr (fun kc acc => kc.2 + acc) 0 d.
Proof. unfold total. induction d as [|kc d IH]; simpl; [done|]. by rewrite IH. Qed.

Lemma commit_author_named event r :
  commit_author event = Ok r -> r = named_author event.
Proof.
  unfold commit_author, named_author, mbind, result_bind.
  destruct event as [| | | | |d]; simpl; try done.
  destruct (dict_lookup "commit" d) as [c|]; simpl; [|congruence].
  destruct c as [|b|z|s|l|dc]; simpl; try congruence;
    try (destruct b; simpl; congruence); try (destruct (z =? 0); simpl; congruence);
    try (destruct (String.eqb s ""); simpl; congruence);
    try (destruct l; simpl; congruence).
  destruct dc as [|f dc]; [simpl; congruence|].
  cbv beta iota. destruct (dict_lookup "author" (f :: dc)) as [a|]; simpl; [|congruence].
  destruct a as [|b|z|s|l|da]; simpl; try congruence;
    try (destruct b; simpl; congruence); try (destruct (z =? 0); simpl; congruence);
    try (destruct (String.eqb s ""); simpl; congruence);
    try (destruct l; simpl; congruence).
  destruct da as [|g da]; simpl; congruence.
Qed.

Lemma counted_names_named commits names :
  counted_names commits = Ok names -> names = omap named_author commits.
Proof.
  revert names. induction commits as [|c commits IH]; intros names; simpl.
  - by intros [= <-].
  - destruct (commit_author c) as [[n|]|e] eqn:E; [| |done].
    + apply commit_author_named in E as <-.
      destruct (hashable n); [|done].
      destruct (counted_names commits) as [ns|]; simpl; [|done].
      intros [= <-]. f_equal. by apply IH.
    + apply commit_author_named in E as <-. apply IH.
Qed.

(** C10. Whatever list of commit events goes in, every
    [RepositoryAuthorCommitsNum] that comes out has [commits_num >= 1], and
    no two of them have the same author: not as values, and not even as
    dict keys. *)
Theorem counts_positive_authors_distinct commits (out : list RepositoryAuthorCommitsNum) :
  count_by_author commits = Ok out ->
  Forall (fun r => 1 <= commits_num r) out /\
  NoDup (map author out) /\
  NoDup (map (fun r => key_of (author r)) out).
Proof.
  unfold count_by_author. destruct (count_loop commits []) as [d|e] eqn:E; simpl; [|done].
  intros [= <-]. destruct (count_loop_names _ _ _ E) as (names & Hn & _).
  rewrite (count_loop_tally _ _ _ Hn) in E. injection E as <-.
  assert (NoDup (map (fun r => key_of (author r))
            (map (fun ac : json * Z => {| author := ac.1; commits_num := ac.2 |})
                 (tally names [])))) as Hk.
  { rewrite map_map. simpl. apply tally_NoDup. constructor. }
  split_and!; [| |done].
  - apply Forall_fmap. simpl. apply (tally_positive names []). constructor.
  - rewrite <- (map_map author key_of) in Hk. by apply NoDup_fmap_1 in Hk.
Qed.

(** C6, as the code has it. The events that are counted are those carrying
    a non-empty [commit.author] object, each under that object's [name],
    or under "Unknown" when it has none; an event without such an object
    is skipped. Every counted event adds one to exactly one author's
    count, and the authors come out in the order in which they were first
    seen. *)
Theorem counted_events_tallied_in_first_seen_order commits names :
  counted_names commits = Ok names ->
  names = omap named_author commits /\
  exists out,
    count_by_author commits = Ok out /\
    map author out = first_seen names /\
    Forall (fun r => commits_num r = occurrences (author r) names) out /\
    total out = Z.of_nat (length names).
Proof.
  intros Hn. split; [by apply counted_names_named|].
  unfold count_by_author. rewrite (count_loop_tally _ _ [] Hn). simpl.
  eexists. split; [done|]. split_and!.
  - rewrite map_map. simpl. change (fun x : json * Z => x.1) with (@fst json Z).
    rewrite tally_fst. simpl. apply filter_all. intros m ?%elem_of_nil. done.
  - apply Forall_fmap, Forall_forall. intros [k c] Hkc. simpl.
    rewrite <- (count_of_elem k c (tally names [])); [|by apply tally_NoDup; constructor|done].
    rewrite count_of_tally. simpl. lia.
  - rewrite total_records, total_tally. simpl. lia.
Qed.
End Aggregation.

(** C6, as stated, fails: an event whose [commit.author] is null is not
    counted under "Unknown"; it is counted nowhere, and the counts add up to
    less than the number of events. *)
Lemma event_without_author_is_dropped :
  count_by_author [event_without_author] = Ok [] /\
  total [] <> Z.of_nat (length [event_without_author]).
Proof. split; [reflexivity|discriminate]. Qed.

Lemma counted_events_tallied_in_first_seen_order_witness :
  let commits := [event_by "x"; event_without_author; event_without_name; event_by "x"] in
  let names := [JStr "x"; JStr "Unknown"; JStr "x"] in
  counted_names commits = Ok names /\
  names = omap named_author commits /\
  exists out,
    count_by_author commits = Ok out /\
    map author out = first_seen names /\
    Forall (fun r => commits_num r = occurrences (author r) names) out /\
    total out = Z.of_nat (length names).
Proof.
  intros commits names. split; [reflexivity|].
  apply (counted_events_tallied_in_first_seen_order commits names). reflexivity.
Defined.

Lemma counts_positive_authors_distinct_witness :
  let commits := [event_by "x"; event_by "y"; event_by "x"] in
  let out := [{| author := JStr "x"; commits_num := 2 |};
              {| author := JStr "y"; commits_num := 1 |}] in
  count_by_author commits = Ok out /\
  Forall (fun r => 1 <= commits_num r) out /\
  NoDup (map author out) /\
  NoDup (map (fun r => key_of (author r)) out).
Proof.
  intros commits out. split; [reflexivity|].
  apply (counts_positive_authors_distinct commits out). reflexivity.
Defined.

(** * Properties of the rate limiter *)

Section RateLimiterFacts.
Import RateLimiter.
Implicit Types (rl : t) (clock now T : Z) (granted reqs : list Z) (tk : tick).

Lemma second_positive : 0 < second.
Proof. reflexivity. Qed.

Lemma prune_prune now now' reqs :
  now <= now' -> prune now' (prune now reqs) = prune now' reqs.
Proof.
  intros Hle. unfold prune. apply list_filter_filter_l. intros a. lia.
Qed.


Lemma length_filter_mono {A} (P Q : A -> Prop)
    `{!forall x, Decision (P x), !forall x, Decision (Q x)} (l : list A) :
  (forall x, P x -> Q x) -> (length (filter P l) <= length (filter Q l))%nat.
Proof.
  intros HPQ. rewrite <- (list_filter_filter_l P Q l HPQ). apply length_filter.
Qed.

(** Appending the reading [now] keeps the limiter consistent, provided the
    entries still younger than a second leave room for it. *)
Lemma grant_consistent rl clock now granted :
  consistent rl clock granted ->
  clock <= now ->
  Z.of_nat (length (prune now granted)) + 1 <= max_requests_per_second rl ->
  consistent {| max_requests_per_second := max_requests_per_second rl;
                requests := prune now granted ++ [now] |} now (granted ++ [now]).
Proof.
  intros (Hreq & Hlen & Hpast & Hwin) Hle Hroom.
  pose proof second_positive as Hs.
  unfold consistent; simpl. split_and!.
  - unfold prune. rewrite filter_app, filter_cons_True, filter_nil by lia. done.
  - rewrite length_app. simpl. lia.
  - apply Forall_app. split; [|by repeat constructor].
    eapply Forall_impl; [exact Hpast|]. simpl. intros; lia.
  - intros T. unfold in_window. rewrite filter_app, length_app.
    destruct (decide (T - second < now /\ now <= T)) as [Hin|Hout].
    + rewrite filter_cons_True, filter_nil by done. simpl.
      pose proof (length_filter_mono
        (fun a => T - second < a /\ a <= T) (fun a => now - a < second) granted) as Hm.
      unfold prune in Hroom. 
      assert (forall a, T - second < a /\ a <= T -> now - a < second) as HPQ
        by (intros; lia).
      specialize (Hm HPQ). lia.
    + rewrite filter_cons_False, filter_nil by done. simpl.
      specialize (Hwin T). unfold in_window in Hwin. lia.
Qed.

(** One call: it returns, and it prunes, waits if the limit is reached,
    prunes again and appends. *)
Lemma acquire_step rl clock granted tk :
  1 <= max_requests_per_second rl ->
  punctual tk ->
  consistent rl clock granted ->
  exists rl' now,
    acquire rl clock tk = Ok (rl', now) /\
    clock <= now /\
    max_requests_per_second rl' = max_requests_per_second rl /\
    consistent rl' now (granted ++ [now]).
Proof.
  intros Hmax [Hdelay Hover] Hc. pose proof Hc as (Hreq & Hlen & Hpast & Hwin).
  pose proof second_positive as Hs.
  unfold acquire. set (now := clock + delay tk).
  assert (clock <= now) as Hnow by (unfold now; lia).
  assert (prune now (requests rl) = prune now granted) as Hp.
  { rewrite Hreq. by apply prune_prune. }
  rewrite Hp.
  assert (length (prune now granted) <= length (requests rl))%nat as Hshrink.
  { rewrite <- Hp. apply length_filter. }
  destruct (decide (max_requests_per_second rl <= Z.of_nat (length (prune now granted))))
    as [Hfull|Hroom].
  - destruct (prune now granted) as [|oldest rest] eqn:E; [simpl in Hfull; lia|].
    set (now' := now + (if decide (0 < second - (now - oldest))
                        then second - (now - oldest) else 0) + overshoot tk).
    assert (now <= now' /\ second <= now' - oldest) as [Hle Hold].
    { unfold now'. destruct (decide (0 < second - (now - oldest))); lia. }
    assert (prune now' (oldest :: rest) = prune now' granted) as Hp'.
    { rewrite <- E. by apply prune_prune. }
    exists {| max_requests_per_second := max_requests_per_second rl;
              requests := prune now' (oldest :: rest) ++ [now'] |}, now'.
    split_and!; [done|lia|done|]. rewrite Hp'.
    apply (grant_consistent rl clock now' granted Hc); [lia|].
    rewrite <- Hp'. unfold prune at 1. rewrite filter_cons_False by lia.
    pose proof (length_filter (fun req_time => now' - req_time < second) rest).
    simpl in Hshrink. lia.
  - eexists _, now. split_and!; [done|lia|done|].
    apply (grant_consistent rl clock now granted Hc); lia.
Qed.

Lemma acquire_all_consistent ticks : forall rl clock granted,
  1 <= max_requests_per_second rl ->
  Forall punctual ticks ->
  consistent rl clock granted ->
  exists rl' clock' granted',
    acquire_all rl clock granted ticks = Ok (rl', clock', granted') /\
    length granted' = (length granted + length ticks)%nat /\
    max_requests_per_second rl' = max_requests_per_second rl /\
    consistent rl' clock' granted'.
Proof.
  induction ticks as [|tk ticks IH]; intros rl clock granted Hmax Hticks Hc; simpl.
  - exists rl, clock, granted. split_and!; [done|lia|done|done].
  - apply Forall_cons in Hticks as [Htk Hticks].
    destruct (acquire_step rl clock granted tk Hmax Htk Hc)
      as (rl1 & now & -> & _ & Hm & Hc1).
    destruct (IH rl1 now (granted ++ [now])) as (rl' & clock' & adm' & -> & Hl & Hm' & Hc');
      [lia|done|done|].
    exists rl', clock', adm'. split_and!; [done| |lia|done].
    rewrite Hl, length_app. simpl. lia.
Qed.

Lemma fresh_consistent max clock :
  0 <= max ->
  consistent {| max_requests_per_second := max; requests := [] |} clock [].
Proof. intros. unfold consistent, in_window. simpl. split_and!; try done. Qed.

End RateLimiterFacts.



(** * Properties of the semaphore around [_make_request] *)

Section GateFacts.
Import Gate.
Implicit Types (s : state) (ev : event) (evs : list event) (i : nat) (p q : pc).

Local Abbreviation cnt q l := (Z.of_nat (length (filter (fun x => x = q) l))).

Lemma cnt_insert (l : list pc) i p p' q :
  l !! i = Some p ->
  cnt q (<[i := p']> l) =
    cnt q l - (if decide (p = q) then 1 else 0) + (if decide (p' = q) then 1 else 0).
Proof.
  revert i. induction l as [|x l IH]; intros i Hi; [done|].
  destruct i as [|i]; simpl in Hi |- *.
  - injection Hi as ->. rewrite !filter_cons.
    repeat case_decide; simpl length; lia.
  - specialize (IH i Hi). rewrite !filter_cons.
    destruct (decide (x = q)); simpl length; lia.
Qed.

Lemma move_inv s s' i from to dv :
  move s i from to dv = Some s' ->
  calls s !! i = Some from /\
  value s' = value s + dv /\
  calls s' = <[i := to]> (calls s).
Proof.
  unfold move. destruct (calls s !! i) as [p|]; [|done].
  destruct (decide (p = from)) as [->|]; [|done]. by intros [= <-].
Qed.

(** A step neither creates nor loses a slot. *)
Lemma step_slots s ev s' :
  step s ev = Some s' ->
  value s' + holders s' = value s + holders s /\
  (0 <= value s -> 0 <= value s') /\
  length (calls s') = length (calls s).
Proof.
  unfold holders, count.
  destruct ev as [i|i|i|i|i]; simpl;
    [destruct (decide (0 < value s)); [|done]|..];
    intros (Hi & -> & ->)%move_inv;
    rewrite !(cnt_insert _ _ _ _ _ Hi), length_insert;
    repeat case_decide; try done; split_and!; lia.
Qed.

Lemma run_app s evs1 evs2 :
  run s (evs1 ++ evs2) = s1 ← run s evs1; run s1 evs2.
Proof.
  revert s. induction evs1 as [|ev evs1 IH]; intros s; simpl; [done|].
  destruct (step s ev); [apply IH|done].
Qed.

Lemma run_slots evs : forall s s',
  run s evs = Some s' ->
  value s' + holders s' = value s + holders s /\ (0 <= value s -> 0 <= value s').
Proof.
  induction evs as [|ev evs IH]; intros s s'; simpl.
  - by intros [= ->].
  - destruct (step s ev) as [s1|] eqn:E; [|done].
    intros Hrun. destruct (step_slots _ _ _ E) as (H1 & H2 & _).
    destruct (IH _ _ Hrun) as (H3 & H4). split; [lia|auto].
Qed.

Lemma start_slots max n : holders (start max n) = 0.
Proof.
  unfold holders, count, start. simpl.
  induction n as [|n IH]; simpl; [done|].
  rewrite !filter_cons_False by done. exact IH.
Qed.

Lemma count_le_holders s : 0 <= count Holding s /\ 0 <= count InTransport s.
Proof. unfold count. lia. Qed.

Lemma finished_no_holders (l : list pc) :
  Forall finished l -> cnt Holding l = 0 /\ cnt InTransport l = 0.
Proof.
  induction 1 as [|p l [-> | ->] Hl IH]; simpl; [done|..];
    rewrite !filter_cons_False by done; exact IH.
Qed.

Lemma step_entered evs s ev s' :
  entered evs s -> step s ev = Some s' -> entered (evs ++ [ev]) s'.
Proof.
  intros Hent Hstep i.
  assert (exists j from to dv,
            move s j from to dv = Some s' /\
            (to = Holding -> ev = Enter j) /\
            (to = InTransport -> ev = Cleared j /\ from = Holding))
    as (j & from & to & dv & Hmove & Hhold & Htrans).
  { destruct ev as [j|j|j|j|j]; simpl in Hstep;
      [destruct (decide (0 < value s)); [|done]|..];
      eexists j, _, _, _; (split; [exact Hstep|]); split; intros; try done. }
  apply move_inv in Hmove as (Hj & _ & Hcalls). rewrite Hcalls.
  destruct (Hent i) as [Hi1 Hi2]. rewrite !elem_of_app, !list_elem_of_singleton.
  destruct (decide (j = i)) as [->|Hne].
  - rewrite list_lookup_insert_eq by (by eapply lookup_lt_Some). split.
    + intros [= ->]. right. symmetry. by apply Hhold.
    + intros [= ->]. destruct (Htrans eq_refl) as [-> ->].
      split; [left; by apply Hi1|by right].
  - rewrite list_lookup_insert_ne by done. split.
    + intros ?%Hi1. by left.
    + intros [??]%Hi2. split; by left.
Qed.

Lemma run_entered max n evs s :
  run (start max n) evs = Some s -> entered evs s.
Proof.
  revert s. induction evs as [|ev evs IH] using rev_ind; intros s.
  - simpl. intros [= <-] i. unfold start. simpl.
    split; intros [? _]%lookup_replicate; done.
  - rewrite run_app. destruct (run (start max n) evs) as [s1|]; [|done]. simpl.
    destruct (step s1 ev) as [s2|] eqn:E; [|done]. intros [= <-].
    eapply step_entered; [by apply IH|done].
Qed.

(** C5. From [max_concurrent_requests] free slots and any number of calls
    of [_make_request], whatever the interleaving: the calls inside the
    transport are never more than [max_concurrent_requests]; the free slots
    and the calls holding one always add up to [max_concurrent_requests],
    so a call that has left, with a value or with an exception, holds
    none, and all slots are free again once every call has left; and a
    call reaches the rate limiter only after it took a slot, and the
    transport only after the rate limiter let it through. *)
Theorem at_most_max_in_transport (max : Z) (n : nat) evs s :
  0 <= max ->
  run (start max n) evs = Some s ->
  in_transport s <= max /\
  (value s + holders s = max /\ 0 <= value s) /\
  (Forall finished (calls s) -> value s = max) /\
  (forall before ev after i,
     evs = before ++ ev :: after ->
     (ev ∈ [Cleared i; LimiterRaise i] -> Enter i ∈ before) /\
     (ev ∈ [Respond i; Fault i] -> Enter i ∈ before /\ Cleared i ∈ before)).
Proof.
  intros Hmax Hrun.
  destruct (run_slots _ _ _ Hrun) as [Hsum Hpos].
  rewrite start_slots in Hsum. simpl in Hsum, Hpos.
  pose proof (count_le_holders s) as [Hh Ht].
  split_and!.
  - unfold in_transport, holders in *. lia.
  - lia.
  - lia.
  - intros Hfin. unfold holders, count in Hsum.
    destruct (finished_no_holders _ Hfin) as [E1 E2]. rewrite E1, E2 in Hsum. lia.
  - intros before ev after i ->. rewrite run_app in Hrun.
    destruct (run (start max n) before) as [s1|] eqn:E1; [|done]. simpl in Hrun.
    destruct (step s1 ev) as [s2|] eqn:E2; [|done].
    destruct (run_entered _ _ _ _ E1 i) as [Hi1 Hi2].
    split; intros [->|[->|[]%elem_of_nil]%elem_of_cons]%elem_of_cons;
      simpl in E2; apply move_inv in E2 as [? _]; auto.
Qed.
End GateFacts.

Lemma at_most_max_in_transport_witness :
  let evs := [Gate.Enter 0; Gate.Cleared 0; Gate.Fault 0; Gate.Enter 1; Gate.Cleared 1]%nat in
  let s := {| Gate.value := 0; Gate.calls := [Gate.Failed; Gate.InTransport; Gate.Waiting] |} in
  Gate.run (Gate.start 1 3) evs = Some s /\
  Gate.run (Gate.start 1 3) [Gate.Enter 0; Gate.Enter 1]%nat = None /\
  Gate.in_transport s <= 1.
Proof.
  intros evs s. split; [reflexivity|]. split; [reflexivity|].
  apply (at_most_max_in_transport 1 3 evs s); [lia|reflexivity].
Defined.

(** * Properties of [gather] *)

Section GatherFacts.
Context {St T A : Type}.
Implicit Types (run : T -> St -> A * St) (sched : list nat) (s : St).

(** Every pending task finishes, once. *)
Lemma run_pending_keys run n : forall sched (pending : list (nat * T)) s,
  (length pending <= n)%nat ->
  map fst (run_pending run n sched pending s).1 ≡ₚ map fst pending.
Proof.
  induction n as [|n IH]; intros sched pending s Hn.
  - destruct pending; [done|simpl in Hn; lia].
  - destruct pending as [|first rest]; [done|].
    cbn [run_pending]. remember (first :: rest) as pending eqn:Hp.
    set (k := (hd 0%nat sched `mod` length pending)%nat).
    assert (k < length pending)%nat as Hk.
    { apply Nat.mod_upper_bound. by rewrite Hp. }
    destruct (lookup_lt_is_Some_2 pending k Hk) as [[i task] Hlook].
    rewrite (nth_lookup_Some _ _ first _ Hlook).
    destruct (run task s) as [a s1] eqn:E.
    specialize (IH (tl sched) (delete k pending) s1).
    destruct (run_pending run n (tl sched) (delete k pending) s1) as [finished s2].
    rewrite (delete_Permutation pending k (i, task) Hlook). simpl in IH |- *.
    constructor. apply IH.
    rewrite length_delete by eauto. lia.
Qed.

Lemma slot_is_Some (finished : list (nat * A)) i :
  i ∈ map fst finished -> is_Some (slot i finished).
Proof.
  induction finished as [|[j a] finished IH]; simpl; [by intros ?%elem_of_nil|].
  intros Hi. destruct (decide (j = i)); [by eexists|].
  apply IH. apply elem_of_cons in Hi as [?|?]; [congruence|done].
Qed.

Lemma length_omap_total {B C} (f : B -> option C) (l : list B) :
  Forall (fun x => is_Some (f x)) l -> length (omap f l) = length l.
Proof.
  induction 1 as [|x l [y Hy] Hl IH]; csimpl; [done|]. rewrite Hy. csimpl. by rewrite IH.
Qed.

Lemma imap_pair_fst (tasks : list T) : map fst (imap pair tasks) = seq 0 (length tasks).
Proof.
  change (map fst (imap pair tasks)) with (fst <$> imap pair tasks).
  rewrite fmap_imap, (imap_ext _ (fun i _ => id i)) by done.
  rewrite imap_seq_0. apply list_fmap_id.
Qed.

(** [gather] returns one result per task. *)
Lemma gather_length run sched (tasks : list T) s :
  length (gather run sched tasks s).1 = length tasks.
Proof.
  unfold gather.
  pose proof (run_pending_keys run (length tasks) sched (imap pair tasks) s) as Hperm.
  destruct (run_pending run (length tasks) sched (imap pair tasks) s) as [finished s'].
  cbn [fst snd] in *. rewrite length_omap_total, length_seq; [done|].
  apply Forall_forall. intros i Hi. apply slot_is_Some.
  rewrite Hperm, imap_pair_fst; [done|]. by rewrite length_imap.
Qed.
End GatherFacts.

Section GatherMap.
Context {St T A B : Type} (run : T -> St -> A * St) (f : A -> B).

Lemma slot_fmap (finished : list (nat * A)) i :
  slot i (map (fun ia => (ia.1, f ia.2)) finished) = f <$> slot i finished.
Proof.
  induction finished as [|[j a] finished IH]; simpl; [done|].
  destruct (decide (j = i)); [done|apply IH].
Qed.

(** Post-processing each task's result commutes with [gather]: a task's
    result depends on what its own call returned and on nothing else. *)
Lemma run_pending_fmap (run' : T -> St -> B * St) n :
  (forall t s, run' t s = (f (run t s).1, (run t s).2)) ->
  forall sched pending s,
    run_pending run' n sched pending s =
      (map (fun ia => (ia.1, f ia.2)) (run_pending run n sched pending s).1,
       (run_pending run n sched pending s).2).
Proof.
  intros Hrun. induction n as [|n IH]; intros sched pending s; [done|].
  destruct pending as [|first rest]; [done|]. cbn [run_pending].
  destruct (nth _ (first :: rest) first) as [i task].
  rewrite Hrun. destruct (run task s) as [a s1]. cbn [fst snd].
  rewrite IH. by destruct (run_pending run n _ _ s1) as [finished s2].
Qed.

Lemma gather_fmap (run' : T -> St -> B * St) sched (tasks : list T) s :
  (forall t s, run' t s = (f (run t s).1, (run t s).2)) ->
  gather run' sched tasks s =
    (map f (gather run sched tasks s).1, (gather run sched tasks s).2).
Proof.
  intros Hrun. unfold gather. rewrite (run_pending_fmap run' _ Hrun).
  destruct (run_pending run _ _ _ s) as [finished s']. cbn [fst snd]. f_equal.
  induction (seq 0 (length tasks)) as [|i l IH]; csimpl; [done|].
  rewrite slot_fmap. destruct (slot i finished); csimpl; [|done]. by rewrite IH.
Qed.
End GatherMap.

(** * Properties of [get_repositories] *)

Section ScrapperFacts.
Context {world : Type} (srv : server world).
Implicit Types (s : state world) (sched : list nat) (limit : Z) (records : list json).

Local Abbreviation fetch_task :=
  (fun t : json * json => _make_request srv (ListCommits t.1 t.2)).
Local Abbreviation count_task :=
  (fun t : json * json => _get_repository_commits_count_by_author srv t.1 t.2).

Lemma make_request_sent req s :
  exists tail, sent (_make_request srv req s).2 = sent s ++ tail /\ (tail = [] \/ tail = [req]).
Proof.
  unfold _make_request. destruct (rate_acquire srv (env s)) as [[[]|e] w].
  - destruct (session_request srv req w) as [response w']. simpl.
    exists [req]. by split; [|right].
  - simpl. exists []. split; [by rewrite app_nil_r|by left].
Qed.

(** A failed fetch is turned into an empty result inside the task. *)
Lemma commits_never_raise owner repo s :
  exists commits,
    _get_repository_commits srv owner repo s =
      (Ok commits, (_make_request srv (ListCommits owner repo) s).2).
Proof.
  unfold _get_repository_commits.
  destruct (_make_request srv (ListCommits owner repo) s) as [[c|e] s']; by eexists.
Qed.

Lemma count_task_fetch (t : json * json) s :
  count_task t s = (counts_of_fetch (fetch_task t s).1, (fetch_task t s).2).
Proof.
  unfold _get_repository_commits_count_by_author, _get_repository_commits.
  destruct (_make_request srv (ListCommits t.1 t.2) s) as [[c|e] s']; simpl; [|done].
  by destruct c.
Qed.

Lemma read_record_position p record entry :
  read_record p record = Ok entry -> d_position entry.1 = p.
Proof.
  unfold read_record, mbind, result_bind, py_get.
  destruct record as [| | | | |d]; try done.
  destruct (from_option id (JDict []) (dict_lookup "owner" d)); try done.
  by intros [= <-].
Qed.

Lemma read_record_readable p record :
  readable_record record -> exists entry, read_record p record = Ok entry.
Proof.
  unfold readable_record, read_record, mbind, result_bind, py_get.
  destruct record as [| | | | |d]; try done.
  destruct (dict_lookup "owner" d) as [[| | | | |o]|]; try done; simpl; by eexists.
Qed.

Lemma read_records_lookup records : forall p data tasks,
  read_records p records = Ok (data, tasks) ->
  length data = length records /\
  length tasks = length records /\
  forall i record,
    records !! i = Some record ->
    exists entry,
      read_record (p + Z.of_nat i) record = Ok entry /\
      data !! i = Some entry.1 /\
      tasks !! i = Some entry.2.
Proof.
  induction records as [|r records IH]; intros p data tasks; simpl.
  - intros [= <- <-]. by split_and!.
  - unfold mbind, result_bind.
    destruct (read_record p r) as [entry|] eqn:E; [|done].
    destruct (read_records (p + 1) records) as [[data' tasks']|] eqn:E'; [|done].
    intros [= <- <-]. destruct (IH _ _ _ E') as (Hd & Ht & Hl). simpl.
    split_and!; [by rewrite Hd|by rewrite Ht|].
    intros [|i] record Hi; simpl in Hi.
    + injection Hi as <-. exists entry. by rewrite Z.add_0_r.
    + destruct (Hl i record Hi) as (en & Hr & ? & ?). exists en.
      split_and!; [|done|done]. rewrite <- Hr. f_equal. lia.
Qed.

Lemma read_records_readable records : forall p,
  Forall readable_record records -> exists out, read_records p records = Ok out.
Proof.
  induction records as [|r records IH]; intros p Hall; simpl; [by eexists|].
  apply Forall_cons in Hall as [Hr Hall].
  destruct (read_record_readable p r Hr) as [entry ->].
  destruct (IH (p + 1) Hall) as [others ->]. simpl. by eexists.
Qed.

(** The shape of a run once the listing has been read. *)
Lemma get_repositories_read sched limit s top s1 records data tasks :
  _get_top_repositories srv limit s = (Ok top, s1) ->
  py_iter top = Ok records ->
  read_records 1 records = Ok (data, tasks) ->
  listed srv limit s = records /\
  commit_fetches srv sched limit s = (gather fetch_task sched tasks s1).1 /\
  get_repositories srv sched limit s =
    (Ok (zip_with assemble data
           (map counts_of_fetch (gather fetch_task sched tasks s1).1)),
     (gather fetch_task sched tasks s1).2).
Proof.
  intros Htop Hiter Hread.
  unfold listed, commit_fetches, get_repositories. rewrite Htop, Hiter. simpl.
  rewrite Hread. split_and!; [done|done|].
  by rewrite (gather_fmap fetch_task counts_of_fetch count_task sched tasks s1 count_task_fetch).
Qed.

Lemma run_cases sched limit s :
  (exists top s1 records data tasks,
     _get_top_repositories srv limit s = (Ok top, s1) /\
     py_iter top = Ok records /\
     read_records 1 records = Ok (data, tasks)) \/
  (exists e s1,
     get_repositories srv sched limit s = (Raise e, s1) /\
     commit_fetches srv sched limit s = []).
Proof.
  unfold get_repositories, commit_fetches.
  destruct (_get_top_repositories srv limit s) as [[top|e] s1]; [|right; by eexists _, _].
  destruct (py_iter top) as [records|e] eqn:Hiter; simpl; [|right; by eexists _, _].
  destruct (read_records 1 records) as [[data tasks]|e] eqn:Hread;
    [|right; by eexists _, _].
  left. by exists top, s1, records, data, tasks.
Qed.


Lemma zip_with_assemble_summary data (cs : list (result (list RepositoryAuthorCommitsNum))) :
  length cs = length data ->
  map position (zip_with assemble data cs) = map d_position data /\
  map name (zip_with assemble data cs) = map d_name data.
Proof.
  revert cs. induction data as [|rd data IH]; intros [|c cs] Hlen; simpl in *; try done.
  destruct (IH cs) as [-> ->]; [lia|done].
Qed.


(** C2. In every run that returns, the [i]-th repository (from 0) is built
    from the [i]-th record of the listing and has position [i + 1], so
    positions increase strictly along the batch; no schedule of the tasks
    changes the positions or the names. *)
Theorem positions_follow_listing sched limit s batch s' :
  get_repositories srv sched limit s = (Ok batch, s') ->
  length batch = length (listed srv limit s) /\
  (forall i r,
     batch !! i = Some r ->
     position r = Z.of_nat i + 1 /\
     exists record entry,
       listed srv limit s !! i = Some record /\
       read_record (Z.of_nat i + 1) record = Ok entry /\
       name r = d_name entry.1 /\ owner r = d_owner entry.1) /\
  (forall i j ri rj,
     (i < j)%nat -> batch !! i = Some ri -> batch !! j = Some rj ->
     position ri < position rj) /\
  (forall sched',
     exists batch' s'',
       get_repositories srv sched' limit s = (Ok batch', s'') /\
       map position batch' = map position batch /\
       map name batch' = map name batch).
Proof.
  intros Hrun.
  destruct (run_cases sched limit s)
    as [(top & s1 & records & data & tasks & Htop & Hiter & Hread)|(e & s1 & Hraise & _)];
    [|by rewrite Hraise in Hrun].
  destruct (get_repositories_read sched limit s _ _ _ _ _ Htop Hiter Hread)
    as (Hlisted & _ & Hshape).
  rewrite Hshape in Hrun. injection Hrun as <- <-. rewrite Hlisted.
  destruct (read_records_lookup _ _ _ _ Hread) as (Hd & Ht & Hl).
  assert (forall sched0,
            length (map counts_of_fetch (gather fetch_task sched0 tasks s1).1)
              = length data) as Hlen.
  { intros sched0. rewrite length_map, gather_length. lia. }
  assert (forall i r,
            zip_with assemble data
              (map counts_of_fetch (gather fetch_task sched tasks s1).1) !! i = Some r ->
            position r = Z.of_nat i + 1 /\
            exists record entry,
              records !! i = Some record /\
              read_record (Z.of_nat i + 1) record = Ok entry /\
              name r = d_name entry.1 /\ owner r = d_owner entry.1) as Hrank.
  { intros i r (rd & c & -> & Hrd & _)%lookup_zip_with_Some.
    destruct (lookup_lt_is_Some_2 records i) as [record Hrec].
    { apply lookup_lt_Some in Hrd. lia. }
    destruct (Hl i record Hrec) as (entry & Hentry & Hrd' & _).
    rewrite Hrd in Hrd'. injection Hrd' as ->.
    replace (1 + Z.of_nat i) with (Z.of_nat i + 1) in Hentry by lia.
    split; [by apply (read_record_position _ _ _ Hentry)|by exists record, entry]. }
  split_and!; [|exact Hrank| |].
  - rewrite length_zip_with_l_eq; [lia|]. by rewrite Hlen.
  - intros i j ri rj Hij [-> _]%Hrank [-> _]%Hrank. lia.
  - intros sched'.
    destruct (get_repositories_read sched' limit s _ _ _ _ _ Htop Hiter Hread)
      as (_ & _ & ->).
    eexists _, _. split; [done|].
    destruct (zip_with_assemble_summary data _ (Hlen sched)) as [-> ->].
    destruct (zip_with_assemble_summary data _ (Hlen sched')) as [-> ->]. done.
Qed.

(** C3, as the code has it. When the listing call fails, the run raises
    that very exception, unchanged, and ends in the state the listing
    call left: no commit request is sent. When the listing call returns a
    list of records that are dicts with no [owner] or a dict for [owner],
    the run returns a batch. *)
Theorem listing_failure_is_fatal sched limit s :
  (forall e s1,
     _get_top_repositories srv limit s = (Raise e, s1) ->
     get_repositories srv sched limit s = (Raise e, s1) /\
     commit_fetches srv sched limit s = [] /\
     filter (fun req => is_commit_request req = true) (sent s1)
       = filter (fun req => is_commit_request req = true) (sent s)) /\
  (forall records s1,
     _get_top_repositories srv limit s = (Ok (JList records), s1) ->
     Forall readable_record records ->
     exists batch s2, get_repositories srv sched limit s = (Ok batch, s2)).
Proof.
  split.
  - intros e s1 Htop. unfold get_repositories, commit_fetches. rewrite Htop.
    split_and!; [done|done|].
    unfold _get_top_repositories in Htop.
    destruct (make_request_sent (SearchRepositories limit) s) as (tail & Hsent & Htail).
    destruct (_make_request srv (SearchRepositories limit) s) as [data s0].
    injection Htop as _ <-. simpl in Hsent. rewrite Hsent, filter_app.
    destruct Htail as [-> | ->]; by rewrite ?filter_cons_False, ?filter_nil, app_nil_r.
  - intros records s1 Htop Hall.
    destruct (read_records_readable records 1 Hall) as [[data tasks] Hread].
    destruct (get_repositories_read sched limit s _ _ _ _ _ Htop eq_refl Hread)
      as (_ & _ & ->).
    by eexists _, _.
Qed.
End ScrapperFacts.

(** * The runs of the examples *)

(** The scenario of three repositories of which the second one's commit
    request fails, with the tasks finishing in the order C, A, B. *)
Example three_repositories_B_fails :
  map (fun r => (name r, position r, authors_commits_num_today r))
      (from_option id [] (match (get_repositories server_B_fails [2; 0; 1]%nat 3 fresh).1 with
                          | Ok batch => Some batch
                          | Raise _ => None
                          end)) =
    [(JStr "A", 1, [{| author := JStr "x"; commits_num := 2 |};
                    {| author := JStr "y"; commits_num := 1 |}]);
     (JStr "B", 2, []);
     (JStr "C", 3, [{| author := JStr "x"; commits_num := 2 |};
                    {| author := JStr "y"; commits_num := 1 |}])].
Proof. reflexivity. Qed.


Lemma positions_follow_listing_witness :
  exists batch s',
    get_repositories server_B_fails [2; 0; 1]%nat 3 fresh = (Ok batch, s') /\
    map position batch = [1; 2; 3] /\
    length batch = length (listed server_B_fails 3 fresh).
Proof.
  eexists _, _. split; [vm_compute; reflexivity|]. split; [reflexivity|].
  exact (proj1 (positions_follow_listing server_B_fails [2; 0; 1]%nat 3 fresh _ _ eq_refl)).
Defined.

(** C3, as stated, fails twice. A refused listing call surfaces as the
    [KeyError] of [data["items"]], not as an exception of the run's own; and
    a listing call that succeeded is not the end of the errors: a record
    whose [owner] is null makes the run raise. *)
Lemma run_errors_beyond_catalog_unavailable :
  (exists e s1,
     get_repositories server_refused [] 3 fresh = (Raise e, s1) /\
     exn_class e = "KeyError" /\ exn_class e <> "CatalogUnavailable") /\
  (exists top s1 e,
     _get_top_repositories server_null_owner 3 fresh = (Ok top, s1) /\
     get_repositories server_null_owner [] 3 fresh = (Raise e, s1)).
Proof.
  split.
  - exists (KeyError "items"), {| env := (); sent := [SearchRepositories 3] |}.
    split; [reflexivity|]. split; [reflexivity|discriminate].
  - eexists _, _, _. split; reflexivity.
Qed.

Lemma listing_failure_is_fatal_witness :
  (_get_top_repositories server_down 3 fresh
     = (Raise (ClientError "cannot connect"), {| env := (); sent := [SearchRepositories 3] |}) /\
   get_repositories server_down [] 3 fresh
     = (Raise (ClientError "cannot connect"), {| env := (); sent := [SearchRepositories 3] |})) /\
  (Forall readable_record [record_of "A" owned; record_of "B" owned; record_of "C" owned] /\
   exists batch s2, get_repositories server_B_fails [] 3 fresh = (Ok batch, s2)).
Proof.
  assert (Forall readable_record
            [record_of "A" owned; record_of "B" owned; record_of "C" owned]) as Hall.
  { repeat constructor. }
  split; [split; [reflexivity|]|split; [exact Hall|]].
  - exact (proj1 (proj1 (listing_failure_is_fatal server_down [] 3 fresh) _ _ eq_refl)).
  - exact (proj2 (listing_failure_is_fatal server_B_fails [] 3 fresh) _ _ eq_refl Hall).
Defined.

(** C7 at a record whose [language] is null: [get] finds the key, so the
    default "Unknown" is not used and the summary carries the null. *)
Lemma null_language_is_kept :
  exists r s',
    get_repositories server_null_language [] 1 fresh = (Ok [r], s') /\
    language r = JNull /\ language r <> JStr "Unknown".
Proof. eexists _, _. split; [reflexivity|]. split; [reflexivity|discriminate]. Qed.

(** A record without [language] does get "Unknown". *)
Lemma absent_language_is_unknown p d entry :
  dict_lookup "language" d = None ->
  read_record p (JDict d) = Ok entry ->
  d_language entry.1 = JStr "Unknown".
Proof.
  intros Hl. unfold read_record, mbind, result_bind, py_get. rewrite Hl.
  destruct (from_option id (JDict []) (dict_lookup "owner" d)); try done.
  by intros [= <-].
Qed.

(** C8 at a record whose [owner] is null: [get] returns the null, the
    second [get] is called on it, and the whole run raises. *)
Lemma null_owner_fails_the_fetch :
  exists s',
    get_repositories server_null_owner [] 1 fresh = (Raise AttributeError, s') /\
    sent s' = [SearchRepositories 1].
Proof. eexists. split; reflexivity. Qed.

(** A record without [owner] and without [name] gets the empty string for both. *)
Lemma missing_owner_and_name_are_empty :
  exists r s',
    get_repositories server_no_owner_no_name [] 1 fresh = (Ok [r], s') /\
    owner r = JStr "" /\ name r = JStr "".
Proof. eexists _, _. split; [reflexivity|]. split; reflexivity. Qed.

(** * Construction *)

(** C9, as stated, fails: a limit of zero requests per second and zero
    slots is accepted, so is a negative limit; a negative number of slots is
    rejected, with [ValueError]. *)
Lemma nonpositive_capacities_accepted :
  GithubReposScrapper_init 0 0 =
    Ok {| _semaphore := {| sem_value := 0 |};
          _rate_limiter := {| RateLimiter.max_requests_per_second := 0;
                              RateLimiter.requests := [] |} |} /\
  GithubReposScrapper_init 10 (-5) =
    Ok {| _semaphore := {| sem_value := 10 |};
          _rate_limiter := {| RateLimiter.max_requests_per_second := -5;
                              RateLimiter.requests := [] |} |} /\
  exists e, GithubReposScrapper_init (-1) 30 = Raise e /\
            exn_class e <> "ConfigurationInvalid".
Proof.
  split; [reflexivity|]. split; [reflexivity|].
  exists ValueError. split; [reflexivity|discriminate].
Qed.

(** C9, as the code has it. Construction checks nothing itself: it fails,
    with the semaphore's [ValueError], exactly when
    [max_concurrent_requests] is negative; every [requests_per_second] is
    stored as given. *)
Theorem construction_checks_only_semaphore_sign (max_concurrent_requests requests_per_second : Z) :
  GithubReposScrapper_init max_concurrent_requests requests_per_second =
    if decide (max_concurrent_requests < 0) then Raise ValueError
    else Ok {| _semaphore := {| sem_value := max_concurrent_requests |};
               _rate_limiter :=
                 {| RateLimiter.max_requests_per_second := requests_per_second;
                    RateLimiter.requests := [] |} |}.
Proof.
  unfold GithubReposScrapper_init, Semaphore_init, RateLimiter.init, mbind, result_bind.
  by destruct (decide (max_concurrent_requests < 0)).
Qed.

(** A limiter built with a limit of zero or less fails on its first
    [acquire], at [self.requests[0]]. *)
Lemma acquire_with_nonpositive_limit_raises (limit clock : Z) (tk : RateLimiter.tick) :
  limit <= 0 ->
  RateLimiter.acquire
    {| RateLimiter.max_requests_per_second := limit; RateLimiter.requests := [] |} clock tk
    = Raise IndexError.
Proof.
  intros Hl. unfold RateLimiter.acquire, RateLimiter.prune.
  cbn [RateLimiter.requests RateLimiter.max_requests_per_second].
  rewrite filter_nil. by rewrite decide_True by (simpl; lia).
Qed.

(** * Properties of the ClickHouse saver *)

Section ChunkFacts.
Import ClickHouse.
Context {A : Type}.
Implicit Types (data : list A) (size fuel : nat).

Lemma chunks_nil fuel size : chunks fuel size (@nil A) = [].
Proof. by destruct fuel. Qed.

Lemma chunks_concat fuel size data :
  (1 <= size)%nat -> (length data <= fuel)%nat ->
  concat (chunks fuel size data) = data.
Proof.
  intros Hsize. revert data. induction fuel as [|fuel IH]; intros data Hfuel.
  - by destruct data; [|simpl in Hfuel; lia].
  - destruct data as [|x data]; [done|]. cbn [chunks concat].
    rewrite IH; [apply take_drop|]. rewrite length_drop. simpl in *. lia.
Qed.

Lemma chunks_sizes fuel size data :
  (1 <= size)%nat ->
  Forall (fun piece => (1 <= length piece <= size)%nat) (chunks fuel size data).
Proof.
  intros Hsize. revert data. induction fuel as [|fuel IH]; intros data; [constructor|].
  destruct data as [|x data]; [constructor|]. cbn [chunks]. constructor; [|apply IH].
  rewrite length_take. simpl. lia.
Qed.

Lemma chunks_full fuel size data k piece :
  (1 <= size)%nat ->
  chunks fuel size data !! k = Some piece ->
  (S k < length (chunks fuel size data))%nat ->
  length piece = size.
Proof.
  intros Hsize. revert data k. induction fuel as [|fuel IH]; intros data k; [done|].
  destruct data as [|x data]; [done|]. cbn [chunks].
  destruct k as [|k]; simpl.
  - intros [= <-] Hmore.
    destruct (decide (size <= length data)%nat) as [Hle|Hgt].
    + rewrite length_take. simpl. lia.
    + rewrite (drop_ge (x :: data)) in Hmore by (simpl; lia).
      rewrite chunks_nil in Hmore. simpl in Hmore. lia.
  - intros Hk Hmore. apply (IH _ _ Hk). lia.
Qed.

Lemma chunks_count fuel size data :
  (1 <= size)%nat -> (length data <= fuel)%nat -> data <> [] ->
  ((length (chunks fuel size data) - 1) * size < length data
     <= length (chunks fuel size data) * size)%nat.
Proof.
  intros Hsize. revert data. induction fuel as [|fuel IH]; intros data Hfuel Hne.
  - destruct data; [done|simpl in Hfuel; lia].
  - destruct data as [|x data]; [done|]. cbn [chunks length].
    destruct (decide (size <= length data)%nat) as [Hle|Hgt].
    + destruct (drop size (x :: data)) as [|y rest] eqn:E.
      { apply (f_equal length) in E. rewrite length_drop in E. simpl in E. lia. }
      specialize (IH (y :: rest)).
      assert (length (y :: rest) = S (length data) - size)%nat as Hl.
      { rewrite <- E, length_drop. done. }
      rewrite Hl in IH. destruct IH as [IH1 IH2]; [simpl in *; lia|done|].
      destruct (chunks fuel size (y :: rest)) as [|p ps] eqn:Ec.
      { simpl in *. lia. }
      simpl length in *. nia.
    + rewrite (drop_ge (x :: data)) by (simpl; lia). rewrite chunks_nil. simpl. lia.
Qed.
End ChunkFacts.

Section SaverFacts.
Import ClickHouse.
Context {world : Type} (cl : client world).
Implicit Types (s : session world) (data : list row) (table columns : string)
  (pieces : list (list row)) (tr : list effect).

Lemma batches_app tr1 tr2 : batches (tr1 ++ tr2) = batches tr1 ++ batches tr2.
Proof. apply omap_app. Qed.

Lemma tables_app tr1 tr2 : tables (tr1 ++ tr2) = tables tr1 ++ tables tr2.
Proof. apply omap_app. Qed.

Lemma pauses_app tr1 tr2 : pauses (tr1 ++ tr2) = (pauses tr1 + pauses tr2)%nat.
Proof. unfold pauses. by rewrite omap_app, length_app. Qed.

Lemma paced_batches table columns pieces : batches (paced table columns pieces) = pieces.
Proof.
  induction pieces as [|piece rest IH]; [done|].
  destruct rest as [|next rest]; [done|].
  change (batches (paced table columns (piece :: next :: rest)))
    with (piece :: batches (paced table columns (next :: rest))).
  by rewrite IH.
Qed.

Lemma paced_tables table columns pieces :
  tables (paced table columns pieces) = replicate (length pieces) table.
Proof.
  induction pieces as [|piece rest IH]; [done|].
  destruct rest as [|next rest]; [done|].
  change (tables (paced table columns (piece :: next :: rest)))
    with (table :: tables (paced table columns (next :: rest))).
  by rewrite IH.
Qed.

Lemma paced_pauses table columns pieces :
  pauses (paced table columns pieces) = (length pieces - 1)%nat.
Proof.
  induction pieces as [|piece rest IH]; [done|].
  destruct rest as [|next rest]; [done|].
  change (pauses (paced table columns (piece :: next :: rest)))
    with (S (pauses (paced table columns (next :: rest)))).
  rewrite IH. simpl. lia.
Qed.

Lemma paced_last table columns pieces piece :
  last pieces = Some piece ->
  last (paced table columns pieces) = Some (Executed table columns piece).
Proof.
  induction pieces as [|p rest IH]; [done|].
  destruct rest as [|next rest]; [by intros [= ->]|].
  intros Hl. apply IH in Hl.
  change (paced table columns (p :: next :: rest))
    with (Executed table columns p :: Slept :: paced table columns (next :: rest)).
  by rewrite !last_cons_cons.
Qed.

(** The loop over [range] and slices does what [send_chunks] does with the
    pieces of the data that is left. *)
Lemma save_loop_chunks batch_size data table columns fuel : forall (n : nat) s,
  1 <= batch_size ->
  (length data - n <= fuel)%nat ->
  save_loop cl batch_size
      (range_up fuel (Z.of_nat n) (Z.of_nat (length data)) batch_size)
      data table columns s
    = send_chunks cl (chunks fuel (Z.to_nat batch_size) (drop n data)) table columns s.
Proof.
  induction fuel as [|fuel IH]; intros n s Hsize Hfuel; [done|].
  cbn [range_up chunks].
  destruct (decide (Z.of_nat n < Z.of_nat (length data))) as [Hlt|Hge].
  - destruct (drop n data) as [|x rest] eqn:Edrop.
    { apply (f_equal length) in Edrop. rewrite length_drop in Edrop. simpl in Edrop. lia. }
    cbn [save_loop send_chunks]. unfold py_slice.
    replace (Z.to_nat (Z.of_nat n + batch_size - Z.of_nat n)) with (Z.to_nat batch_size) by lia.
    rewrite Nat2Z.id, Edrop.
    destruct (take (Z.to_nat batch_size) (x :: rest)) as [|y piece] eqn:Etake.
    { apply (f_equal length) in Etake. rewrite length_take in Etake. simpl in Etake. lia. }
    destruct (execute cl table columns (y :: piece) (db s)) as [[[]|e] w]; [|done].
    assert (drop (Z.to_nat batch_size) (x :: rest) = drop (n + Z.to_nat batch_size) data)
      as Hnext.
    { by rewrite <- Edrop, drop_drop. }
    assert (length (drop (n + Z.to_nat batch_size) data)
              = length data - (n + Z.to_nat batch_size))%nat as Hlen
      by apply length_drop.
    replace (Z.of_nat n + batch_size) with (Z.of_nat (n + Z.to_nat batch_size)) by lia.
    rewrite IH by lia. rewrite Hnext.
    destruct (decide (Z.of_nat (n + Z.to_nat batch_size) < Z.of_nat (length data)))
      as [Hmore|Hlast].
    + destruct fuel as [|fuel]; [lia|].
      destruct (drop (n + Z.to_nat batch_size) data) as [|z more] eqn:E2;
        [simpl in Hlen; lia|done].
    + rewrite (drop_ge data) by lia. by rewrite chunks_nil.
  - rewrite (drop_ge data) by lia. done.
Qed.

Lemma save_in_batches_chunks batch_size data table columns s :
  1 <= batch_size ->
  _save_in_batches cl batch_size data table columns s
    = send_chunks cl (chunks_of (Z.to_nat batch_size) data) table columns s.
Proof.
  intros Hsize. unfold _save_in_batches, chunks_of, range_from_zero.
  destruct data as [|x data]; [done|].
  rewrite decide_False, decide_False by lia. rewrite Nat2Z.id.
  rewrite (save_loop_chunks batch_size (x :: data) table columns _ 0%nat s Hsize) by lia.
  done.
Qed.

(** With a client that never fails, the pieces all go out, paced. *)
Lemma send_chunks_paced pieces table columns : forall s,
  never_fails cl ->
  exists w,
    send_chunks cl pieces table columns s
      = (Done, {| db := w; effects := effects s ++ paced table columns pieces |}).
Proof.
  intros s Hok. revert s. induction pieces as [|piece rest IH]; intros s.
  - exists (db s). simpl. rewrite app_nil_r. by destruct s.
  - cbn [send_chunks]. destruct (Hok table columns piece (db s)) as [w ->].
    destruct rest as [|next rest].
    + exists w. done.
    + destruct (IH {| db := w;
                      effects := (effects s ++ [Executed table columns piece]) ++ [Slept] |})
        as [w' Hw'].
      exists w'. cbn [db effects] in *. rewrite Hw'. do 2 f_equal.
      by rewrite <- !app_assoc.
Qed.

(** Whatever the client does, what was handed to it is a first part of the
    pieces, and of them all when the save is done; the save never ends on
    a pause after a failure, and never with [EmptyBatch]. *)
Lemma send_chunks_prefix pieces table columns : forall s o s',
  send_chunks cl pieces table columns s = (o, s') ->
  exists tr k,
    effects s' = effects s ++ tr /\
    batches tr = take k pieces /\
    tables tr = replicate (length (batches tr)) table /\
    (o = Done -> tr = paced table columns pieces) /\
    (forall f, o = Failed f ->
       exists e piece, f = Raised e /\ last tr = Some (Executed table columns piece)).
Proof.
  induction pieces as [|piece rest IH]; intros s o s'; cbn [send_chunks].
  - intros [= <- <-]. exists [], 0%nat. rewrite app_nil_r. by split_and!.
  - destruct (execute cl table columns piece (db s)) as [[[]|e] w].
    + intros (tr & k & Heff & Hb & Ht & Hdone & Hfail)%IH.
      destruct rest as [|next rest].
      * cbn [effects] in Heff.
        exists (Executed table columns piece :: tr), (S k).
        rewrite Heff, <- app_assoc. split_and!; [done| | | |].
        -- change (batches (Executed table columns piece :: tr)) with (piece :: batches tr).
           by rewrite Hb.
        -- change (tables (Executed table columns piece :: tr)) with (table :: tables tr).
           change (batches (Executed table columns piece :: tr)) with (piece :: batches tr).
           by rewrite Ht.
        -- intros ->%Hdone. done.
        -- intros f (e & p & -> & Hl)%Hfail. exists e, p. split; [done|].
           destruct tr; [done|]. by rewrite last_cons_cons.
      * cbn [effects db] in Heff.
        exists (Executed table columns piece :: Slept :: tr), (S k).
        rewrite Heff, <- !app_assoc. split_and!; [done| | | |].
        -- change (batches (Executed table columns piece :: Slept :: tr))
             with (piece :: batches tr).
           by rewrite Hb.
        -- change (tables (Executed table columns piece :: Slept :: tr))
             with (table :: tables tr).
           change (batches (Executed table columns piece :: Slept :: tr))
             with (piece :: batches tr).
           by rewrite Ht.
        -- intros ->%Hdone. done.
        -- intros f (e & p & -> & Hl)%Hfail. exists e, p. split; [done|].
           destruct tr; [done|]. by rewrite !last_cons_cons.
    + intros [= <- <-]. exists [Executed table columns piece], 1%nat. cbn [effects].
      split_and!; [done|done|done|done|].
      intros f [= <-]. by exists e, piece.
Qed.

Lemma concat_take_prefix {B} (pieces : list (list B)) k :
  concat (take k pieces) `prefix_of` concat pieces.
Proof.
  exists (concat (drop k pieces)). by rewrite <- concat_app, take_drop.
Qed.

(** X1. With a batch size of at least one and a client that does not fail,
    [_save_in_batches] hands every row to the client exactly once and in
    order, all for the given table; no batch is empty or longer than the
    batch size, and every batch but the last is full. *)
Theorem save_in_batches_sends_every_row_once batch_size data table columns s :
  1 <= batch_size ->
  never_fails cl ->
  exists s' tr,
    _save_in_batches cl batch_size data table columns s = (Done, s') /\
    effects s' = effects s ++ tr /\
    concat (batches tr) = data /\
    tables tr = replicate (length (batches tr)) table /\
    Forall (fun batch => (1 <= length batch)%nat /\ Z.of_nat (length batch) <= batch_size)
           (batches tr) /\
    (forall k batch,
       batches tr !! k = Some batch -> (S k < length (batches tr))%nat ->
       Z.of_nat (length batch) = batch_size).
Proof.
  intros Hsize Hok. rewrite save_in_batches_chunks by done.
  destruct (send_chunks_paced (chunks_of (Z.to_nat batch_size) data) table columns s Hok)
    as [w ->].
  eexists _, _. split; [done|]. cbn [effects]. split; [done|].
  rewrite paced_batches, paced_tables. split_and!; [|done| |].
  - apply chunks_concat; lia.
  - eapply Forall_impl;
      [apply (chunks_sizes (length data) (Z.to_nat batch_size) data); lia|].
    simpl. intros; lia.
  - intros k batch Hk Hmore.
    rewrite (chunks_full (length data) (Z.to_nat batch_size) data k batch);
      [lia|lia|done|done].
Qed.

(** X2. Under the same conditions and for data that is not empty, the
    pauses fall between two batches and nowhere else: one pause fewer than
    batches, the last effect is an INSERT, and the number of batches is the
    number of rows divided by the batch size, rounded up. *)
Theorem save_in_batches_pauses_between_batches batch_size data table columns s :
  1 <= batch_size ->
  never_fails cl ->
  data <> [] ->
  exists s' tr,
    _save_in_batches cl batch_size data table columns s = (Done, s') /\
    effects s' = effects s ++ tr /\
    tr = paced table columns (batches tr) /\
    pauses tr = (length (batches tr) - 1)%nat /\
    (exists batch, last tr = Some (Executed table columns batch)) /\
    (Z.of_nat (length (batches tr)) - 1) * batch_size < Z.of_nat (length data)
      <= Z.of_nat (length (batches tr)) * batch_size.
Proof.
  intros Hsize Hok Hne. rewrite save_in_batches_chunks by done.
  destruct (send_chunks_paced (chunks_of (Z.to_nat batch_size) data) table columns s Hok)
    as [w ->].
  eexists _, _. split; [done|]. cbn [effects]. split; [done|].
  rewrite paced_batches, paced_pauses.
  pose proof (chunks_count (length data) (Z.to_nat batch_size) data) as Hcount.
  fold (chunks_of (Z.to_nat batch_size) data) in Hcount.
  destruct Hcount as [Hlow Hhigh]; [lia|lia|done|].
  split_and!; [done|done| |nia|nia].
  destruct (chunks_of (Z.to_nat batch_size) data) as [|p ps] eqn:E.
  { simpl in Hhigh. destruct data; [done|simpl in Hhigh; lia]. }
  destruct (last (p :: ps)) as [piece|] eqn:El; [|by apply last_None in El].
  exists piece. by apply paced_last.
Qed.

(** X3. A batch size that is not positive: for data that is not empty, zero
    makes [_save_in_batches] raise the [ValueError] of [range] before any
    INSERT, and a negative size makes it return normally without having
    handed a single row to the client. *)
Theorem save_in_batches_without_positive_size batch_size data table columns s :
  data <> [] ->
  batch_size <= 0 ->
  _save_in_batches cl batch_size data table columns s =
    (if decide (batch_size = 0) then Failed (Raised ValueError) else Done, s).
Proof.
  intros Hne Hsize. unfold _save_in_batches, range_from_zero.
  destruct data as [|x data]; [done|].
  destruct (decide (batch_size = 0)); [done|]. by rewrite decide_True by lia.
Qed.

(** What was handed to the client is a first part of the cut data. *)
Lemma save_in_batches_attempts batch_size data table columns s o s' :
  1 <= batch_size ->
  _save_in_batches cl batch_size data table columns s = (o, s') ->
  exists tr k,
    effects s' = effects s ++ tr /\
    batches tr = take k (chunks_of (Z.to_nat batch_size) data) /\
    (o = Done -> tr = paced table columns (chunks_of (Z.to_nat batch_size) data)) /\
    (forall f, o = Failed f ->
       exists e batch, f = Raised e /\ last tr = Some (Executed table columns batch)).
Proof.
  intros Hsize. rewrite save_in_batches_chunks by done.
  intros (tr & k & Heff & Hb & _ & Hdone & Hfail)%send_chunks_prefix.
  by exists tr, k.
Qed.

(** The save follows the client's answers: it goes on while they are [Ok]
    and ends with the first one that is an exception. *)
Lemma send_chunks_answers pieces table columns : forall s o s',
  send_chunks cl pieces table columns s = (o, s') ->
  exists tr,
    effects s' = effects s ++ tr /\
    (o = Done ->
       Forall (fun answer => answer = Ok ()) (responses cl pieces table columns (db s)) /\
       tr = paced table columns pieces) /\
    (forall f, o = Failed f ->
       exists k e batch,
         f = Raised e /\
         responses cl pieces table columns (db s) !! k = Some (Raise e) /\
         Forall (fun answer => answer = Ok ())
                (take k (responses cl pieces table columns (db s))) /\
         pieces !! k = Some batch /\
         batches tr = take (S k) pieces /\
         last tr = Some (Executed table columns batch)).
Proof.
  induction pieces as [|piece rest IH]; intros s o s'; cbn [send_chunks responses].
  - intros [= <- <-]. exists []. rewrite app_nil_r. split_and!; [done|done|done].
  - destruct (execute cl table columns piece (db s)) as [[[]|e] w].
    + match goal with
      | |- send_chunks cl rest table columns ?st = _ -> _ => set (s2 := st)
      end.
      assert (db s2 = w) as Hdb by (unfold s2; by destruct rest).
      assert (exists pre,
                effects s2 = effects s ++ Executed table columns piece :: pre /\
                (rest = [] -> pre = []) /\ (rest <> [] -> pre = [Slept]) /\
                forall tr, batches (pre ++ tr) = batches tr)
        as (pre & Heff2 & Hnil & Hcons & Hb).
      { unfold s2. destruct rest as [|next rest]; cbn [effects db].
        - exists []. split_and!; [done|done| |done]. intros Hne. by destruct Hne.
        - exists [Slept]. rewrite <- !app_assoc. by split_and!. }
      intros Hrun. apply IH in Hrun as (tr & Heff & Hdone & Hfail).
      rewrite Hdb in Hdone, Hfail. rewrite Heff2, <- app_assoc in Heff.
      simpl in Heff. rename Heff into Heff'.
      exists (Executed table columns piece :: pre ++ tr). split; [done|]. split.
      * intros Ho. destruct (Hdone Ho) as [Hall ->]. split; [by constructor|].
        destruct rest as [|next rest]; [by rewrite Hnil|by rewrite Hcons].
      * intros f Ho. destruct (Hfail f Ho) as (k & e & batch & -> & Hk & Hok & Hp & Hbt & Hl).
        exists (S k), e, batch. split_and!; [done|done|by constructor|done| |].
        -- change (batches (Executed table columns piece :: pre ++ tr))
             with (piece :: batches (pre ++ tr)).
           by rewrite Hb, Hbt.
        -- by rewrite last_cons, last_app, Hl.
    + intros [= <- <-]. exists [Executed table columns piece]. cbn [effects].
      split_and!; [done|done|].
      intros f [= <-]. exists 0%nat, e, piece. by split_and!.
Qed.


(** X4. With a batch size of at least one and any client, the save follows
    the client's answers to the batches of the data: it returns normally
    only if every INSERT was answered without an exception, having sent
    all the data; and it fails only with the exception [e] of the first
    INSERT that raised, the [k]-th, after the [k] before it were answered
    normally, having handed over exactly those [k + 1] batches, the failed
    one last. What was handed over is always a first part of the data, and
    the "Empty batch" exception never occurs. *)
Theorem save_in_batches_stops_at_first_failure batch_size data table columns s o s' :
  1 <= batch_size ->
  _save_in_batches cl batch_size data table columns s = (o, s') ->
  (forall t, o <> Failed (EmptyBatch t)) /\
  exists tr,
    effects s' = effects s ++ tr /\
    concat (batches tr) `prefix_of` data /\
    (o = Done ->
       Forall (fun answer => answer = Ok ())
              (responses cl (chunks_of (Z.to_nat batch_size) data) table columns (db s)) /\
       concat (batches tr) = data) /\
    (forall f, o = Failed f ->
       exists k e batch,
         f = Raised e /\
         responses cl (chunks_of (Z.to_nat batch_size) data) table columns (db s) !! k
           = Some (Raise e) /\
         Forall (fun answer => answer = Ok ())
                (take k (responses cl (chunks_of (Z.to_nat batch_size) data)
                           table columns (db s))) /\
         chunks_of (Z.to_nat batch_size) data !! k = Some batch /\
         batches tr = take (S k) (chunks_of (Z.to_nat batch_size) data) /\
         last tr = Some (Executed table columns batch)).
Proof.
  intros Hsize Hrun. rewrite save_in_batches_chunks in Hrun by done.
  destruct (send_chunks_answers _ _ _ _ _ _ Hrun) as (tr & Heff & Hdone & Hfail).
  assert (concat (chunks_of (Z.to_nat batch_size) data) = data) as Hall.
  { apply chunks_concat; lia. }
  split.
  - intros t ->. by destruct (Hfail _ eq_refl) as (k & e & batch & ? & _).
  - exists tr. split_and!; [done| | |done].
    + destruct o as [|f].
      * destruct (Hdone eq_refl) as [_ ->]. by rewrite paced_batches, Hall.
      * destruct (Hfail f eq_refl) as (k & e & batch & _ & _ & _ & _ & -> & _).
        rewrite <- Hall at 2. apply concat_take_prefix.
    + intros Ho. destruct (Hdone Ho) as [Hok ->]. split; [done|].
      by rewrite paced_batches.
Qed.

(** Every row handed to the client by [save_repositories_data] is one of
    the rows built from the repositories. *)
Lemma save_repositories_data_rows batch_size current_time current_date repositories s :
  1 <= batch_size ->
  exists tr,
    effects (save_repositories_data cl batch_size current_time current_date
               repositories s).2 = effects s ++ tr /\
    forall batch r, batch ∈ batches tr -> r ∈ batch ->
      r ∈ repository_rows current_time repositories ++
          position_rows current_date repositories ++
          author_rows current_date repositories.
Proof.
  intros Hsize. unfold save_repositories_data.
  destruct repositories as [|repo repos].
  { exists []. rewrite app_nil_r. split; [done|]. by intros batch r ?%elem_of_nil. }
  set (repositories := repo :: repos).
  assert (forall data table columns s0 o s1,
            _save_in_batches cl batch_size data table columns s0 = (o, s1) ->
            exists tr, effects s1 = effects s0 ++ tr /\
              forall batch r, batch ∈ batches tr -> r ∈ batch -> r ∈ data) as Hone.
  { intros data table columns s0 o s1 Hrun.
    destruct (save_in_batches_attempts _ _ _ _ _ _ _ Hsize Hrun)
      as (tr & k & Heff & Hpre & _).
    exists tr. split; [done|]. intros batch r Hb Hr.
    rewrite <- (chunks_concat (length data) (Z.to_nat batch_size) data) by lia.
    apply list_elem_of_In, in_concat. exists batch. rewrite <- !list_elem_of_In.
    split; [|done]. rewrite Hpre in Hb. by apply (subseteq_take k) in Hb. }
  destruct (_save_in_batches cl batch_size (repository_rows current_time repositories) _ _ s)
    as [o1 s1] eqn:E1.
  destruct (Hone _ _ _ _ _ _ E1) as (tr1 & Heff1 & Hin1).
  destruct o1 as [|f1].
  2:{ exists tr1. split; [done|]. intros batch r Hb Hr. apply elem_of_app. left. eauto. }
  destruct (_save_in_batches cl batch_size (position_rows current_date repositories) _ _ s1)
    as [o2 s2] eqn:E2.
  destruct (Hone _ _ _ _ _ _ E2) as (tr2 & Heff2 & Hin2).
  destruct o2 as [|f2].
  2:{ exists (tr1 ++ tr2). cbn [snd]. rewrite Heff2, Heff1, app_assoc. split; [done|].
      intros batch r Hb Hr. rewrite batches_app in Hb. rewrite !elem_of_app.
      apply elem_of_app in Hb as [Hb|Hb]; eauto. }
  destruct (_save_in_batches cl batch_size (author_rows current_date repositories) _ _ s2)
    as [o3 s3] eqn:E3.
  destruct (Hone _ _ _ _ _ _ E3) as (tr3 & Heff3 & Hin3).
  exists (tr1 ++ tr2 ++ tr3). cbn [snd]. rewrite Heff3, Heff2, Heff1, !app_assoc.
  split; [done|]. intros batch r Hb Hr. rewrite !batches_app in Hb. rewrite !elem_of_app.
  apply elem_of_app in Hb as [Hb|Hb]; [|eauto].
  apply elem_of_app in Hb as [Hb|Hb]; eauto.
Qed.

(** The effects of a save with a client that does not fail. *)
Lemma save_repositories_data_paced batch_size current_time current_date repositories s :
  1 <= batch_size ->
  never_fails cl ->
  exists s',
    save_repositories_data cl batch_size current_time current_date repositories s
      = (Done, s') /\
    effects s' = effects s ++
      paced "repositories" "(name, owner, stars, watchers, forks, language, updated)"
        (chunks_of (Z.to_nat batch_size) (repository_rows current_time repositories)) ++
      paced "repositories_positions" "(date, repo, position)"
        (chunks_of (Z.to_nat batch_size) (position_rows current_date repositories)) ++
      paced "repositories_authors_commits" "(date, repo, author, commits_num)"
        (chunks_of (Z.to_nat batch_size) (author_rows current_date repositories)).
Proof.
  intros Hsize Hok. unfold save_repositories_data.
  destruct repositories as [|repo repos].
  { exists s. split; [done|]. by rewrite app_nil_r. }
  set (repositories := repo :: repos) in *.
  assert (forall data table columns s0, exists w,
            _save_in_batches cl batch_size data table columns s0 =
              (Done, {| db := w;
                        effects := effects s0 ++
                          paced table columns (chunks_of (Z.to_nat batch_size) data) |}))
    as Hsave.
  { intros data table columns s0. rewrite save_in_batches_chunks by done.
    by apply send_chunks_paced. }
  repeat match goal with
         | |- context [_save_in_batches cl batch_size ?data ?table ?columns ?s0] =>
             let w := fresh "w" in
             destruct (Hsave data table columns s0) as [w ->]
         end.
  eexists. split; [done|]. cbn [effects]. by rewrite <- !app_assoc.
Qed.

(** X5. With a batch size of at least one and a client that does not fail,
    [save_repositories_data] writes nothing for an empty list and otherwise
    writes the three tables one after the other: a row per repository into
    [repositories], a row per repository into [repositories_positions], a
    row per repository and author into [repositories_authors_commits],
    each table in paced batches and in the order of the repositories. *)
Theorem save_repositories_data_writes_three_tables
    batch_size current_time current_date repositories s :
  1 <= batch_size ->
  never_fails cl ->
  exists s',
    save_repositories_data cl batch_size current_time current_date repositories s
      = (Done, s') /\
    (repositories = [] -> s' = s) /\
    effects s' = effects s ++
      paced "repositories" "(name, owner, stars, watchers, forks, language, updated)"
        (chunks_of (Z.to_nat batch_size) (repository_rows current_time repositories)) ++
      paced "repositories_positions" "(date, repo, position)"
        (chunks_of (Z.to_nat batch_size) (position_rows current_date repositories)) ++
      paced "repositories_authors_commits" "(date, repo, author, commits_num)"
        (chunks_of (Z.to_nat batch_size) (author_rows current_date repositories)) /\
    length (repository_rows current_time repositories) = length repositories /\
    length (position_rows current_date repositories) = length repositories /\
    length (author_rows current_date repositories)
      = sum_list (map (fun repo => length (authors_commits_num_today repo)) repositories).
Proof.
  intros Hsize Hok.
  destruct (save_repositories_data_paced batch_size current_time current_date
              repositories s Hsize Hok) as (s' & Hrun & Heff).
  exists s'. split_and!; [done| |done| | |].
  - intros ->. by injection Hrun as <-.
  - unfold repository_rows. by rewrite length_map.
  - unfold position_rows. by rewrite length_map.
  - unfold author_rows. induction repositories as [|repo repos IH] in |- *; [done|].
    simpl. by rewrite length_app, length_map, IH.
Qed.
End SaverFacts.

Section MainFacts.
Import ClickHouse.
Context {web store : Type} (srv : server web) (cl : client store).

Lemma repository_rows_language current_time repositories nm ow st wa fo la up :
  RepositoryRow nm ow st wa fo la up ∈ repository_rows current_time repositories ->
  truthy la = true /\
  exists repo, repo ∈ repositories /\
    nm = name repo /\ ow = owner repo /\
    la = (if truthy (language repo) then language repo else JStr "Unknown").
Proof.
  unfold repository_rows. intros (repo & [= -> -> -> -> -> -> ->] & Hin)%list_elem_of_fmap.
  unfold py_or. split; [|by exists repo].
  destruct (truthy (language repo)) eqn:E; [exact E|reflexivity].
Qed.

(** X6. Whatever the GitHub side and the ClickHouse client do, every row
    that [main] hands to the client for the [repositories] table belongs to
    a repository of the scraped batch and carries that repository's
    language when it is truthy and "Unknown" when it is null, empty or
    otherwise falsy; so no such row has a null or empty language. *)
Theorem main_never_writes_an_empty_language sched current_time current_date
    (s : state web) (c : session store) :
  exists tr,
    effects (main srv cl sched current_time current_date s c).2 = effects c ++ tr /\
    forall batch nm ow st wa fo la up,
      batch ∈ batches tr ->
      RepositoryRow nm ow st wa fo la up ∈ batch ->
      truthy la = true /\
      exists repositories s1 repo,
        get_repositories srv sched 10 s = (Ok repositories, s1) /\
        repo ∈ repositories /\
        nm = name repo /\ ow = owner repo /\
        la = (if truthy (language repo) then language repo else JStr "Unknown").
Proof.
  unfold main. destruct (get_repositories srv sched 10 s) as [[repositories|e] s1].
  - cbn [snd].
    destruct (save_repositories_data_rows cl 100 current_time current_date repositories c)
      as (tr & Heff & Hrows); [lia|].
    exists tr. split; [done|]. intros batch nm ow st wa fo la up Hb Hr.
    specialize (Hrows batch _ Hb Hr). rewrite !elem_of_app in Hrows.
    destruct Hrows as [Hrow|[Hrow|Hrow]].
    + apply repository_rows_language in Hrow as [Htrue (repo & Hin & Hnm & How & Hla)].
      split; [done|]. by exists repositories, s1, repo.
    + unfold position_rows in Hrow. by apply list_elem_of_fmap in Hrow as (? & ? & _).
    + unfold author_rows in Hrow. apply list_elem_of_In, in_flat_map in Hrow as (? & _ & Hrow).
      by apply in_map_iff in Hrow as (? & ? & _).
  - exists []. split; [by rewrite app_nil_r|].
    intros batch nm ow st wa fo la up Hb. by apply elem_of_nil in Hb.
Qed.

(** X7. [main] writes to ClickHouse only after a scrape that returned: when
    [get_repositories] raises, the client is not called at all; when it
    returns and the client does not fail, the rows handed to the client are
    the repository rows, the position rows and the author rows of the
    scraped repositories, in that order. *)
Theorem main_saves_what_was_scraped sched current_time current_date
    (s : state web) (c : session store) :
  (forall e s1,
     get_repositories srv sched 10 s = (Raise e, s1) ->
     main srv cl sched current_time current_date s c = (s1, c)) /\
  (forall repositories s1,
     get_repositories srv sched 10 s = (Ok repositories, s1) ->
     never_fails cl ->
     exists c' tr,
       main srv cl sched current_time current_date s c = (s1, c') /\
       effects c' = effects c ++ tr /\
       concat (batches tr) =
         repository_rows current_time repositories ++
         position_rows current_date repositories ++
         author_rows current_date repositories).
Proof.
  unfold main. split.
  - by intros e s1 ->.
  - intros repositories s1 -> Hok.
    destruct (save_repositories_data_paced cl 100 current_time current_date
                repositories c) as (c' & Hrun & Heff); [lia|done|].
    rewrite Hrun. eexists _, _. split; [done|]. split; [exact Heff|].
    rewrite !batches_app, !paced_batches, !concat_app.
    unfold chunks_of. by rewrite !chunks_concat by lia.
Qed.
End MainFacts.

Lemma accepting_never_fails : ClickHouse.never_fails ClickHouse.accepting.
Proof. intros table columns batch w. by eexists. Qed.

Lemma save_in_batches_sends_every_row_once_witness :
  exists s' tr,
    ClickHouse._save_in_batches ClickHouse.accepting 2 ClickHouse.sample_rows
      "repositories_positions" "(date, repo, position)" (ClickHouse.empty_session [])
      = (ClickHouse.Done, s') /\
    ClickHouse.effects s' = [] ++ tr /\
    concat (ClickHouse.batches tr) = ClickHouse.sample_rows.
Proof.
  destruct (save_in_batches_sends_every_row_once ClickHouse.accepting 2
              ClickHouse.sample_rows "repositories_positions" "(date, repo, position)"
              (ClickHouse.empty_session []))
    as (s' & tr & Hrun & Heff & Hall & _); [lia|exact accepting_never_fails|].
  exists s', tr. split; [exact Hrun|]. split; [exact Heff|exact Hall].
Defined.

Lemma save_in_batches_pauses_between_batches_witness :
  exists s' tr,
    ClickHouse._save_in_batches ClickHouse.accepting 2 ClickHouse.sample_rows
      "repositories_positions" "(date, repo, position)" (ClickHouse.empty_session [])
      = (ClickHouse.Done, s') /\
    ClickHouse.pauses tr = (length (ClickHouse.batches tr) - 1)%nat.
Proof.
  destruct (save_in_batches_pauses_between_batches ClickHouse.accepting 2
              ClickHouse.sample_rows "repositories_positions" "(date, repo, position)"
              (ClickHouse.empty_session []))
    as (s' & tr & Hrun & _ & _ & Hp & _); [lia|exact accepting_never_fails|discriminate|].
  exists s', tr. split; [exact Hrun|exact Hp].
Defined.

Lemma save_in_batches_without_positive_size_witness :
  ClickHouse._save_in_batches ClickHouse.accepting (-3) ClickHouse.sample_rows
    "repositories_positions" "(date, repo, position)" (ClickHouse.empty_session [])
    = (ClickHouse.Done, ClickHouse.empty_session []) /\
  ClickHouse._save_in_batches ClickHouse.accepting 0 ClickHouse.sample_rows
    "repositories_positions" "(date, repo, position)" (ClickHouse.empty_session [])
    = (ClickHouse.Failed (ClickHouse.Raised ValueError), ClickHouse.empty_session []).
Proof.
  split.
  - apply (save_in_batches_without_positive_size ClickHouse.accepting (-3)
             ClickHouse.sample_rows); [discriminate|lia].
  - apply (save_in_batches_without_positive_size ClickHouse.accepting 0
             ClickHouse.sample_rows); [discriminate|lia].
Defined.

Lemma save_in_batches_stops_at_first_failure_witness :
  let run := ClickHouse._save_in_batches (ClickHouse.failing_at 1) 2 ClickHouse.sample_rows
               "repositories_positions" "(date, repo, position)"
               (ClickHouse.empty_session 0%nat) in
  run.1 = ClickHouse.Failed (ClickHouse.Raised (ClientError "insert failed")) /\
  ClickHouse.responses (ClickHouse.failing_at 1) (ClickHouse.chunks_of 2 ClickHouse.sample_rows)
    "repositories_positions" "(date, repo, position)" 0%nat
    = [Ok (); Raise (ClientError "insert failed"); Ok ()] /\
  exists tr,
    ClickHouse.effects run.2 = [] ++ tr /\
    concat (ClickHouse.batches tr) `prefix_of` ClickHouse.sample_rows /\
    length (ClickHouse.batches tr) = 2%nat.
Proof.
  intros run. split; [reflexivity|]. split; [reflexivity|].
  destruct (save_in_batches_stops_at_first_failure (ClickHouse.failing_at 1) 2
              ClickHouse.sample_rows "repositories_positions" "(date, repo, position)"
              (ClickHouse.empty_session 0%nat) run.1 run.2)
    as (_ & tr & Heff & Hpre & _ & _); [lia|reflexivity|].
  exists tr. split; [exact Heff|]. split; [exact Hpre|].
  vm_compute in Heff. rewrite <- Heff. reflexivity.
Defined.

Lemma save_repositories_data_writes_three_tables_witness :
  exists s',
    ClickHouse.save_repositories_data ClickHouse.accepting 100 7 8
      [{| name := JStr "A"; owner := JStr "octo"; position := 1; stars := JNum 5;
          watchers := JNum 0; forks := JNum 0; language := JNull;
          authors_commits_num_today := [{| author := JStr "x"; commits_num := 2 |}] |}]
      (ClickHouse.empty_session [])
      = (ClickHouse.Done, s') /\
    length (ClickHouse.db s') = 3%nat.
Proof.
  destruct (save_repositories_data_writes_three_tables ClickHouse.accepting 100 7 8
      [{| name := JStr "A"; owner := JStr "octo"; position := 1; stars := JNum 5;
          watchers := JNum 0; forks := JNum 0; language := JNull;
          authors_commits_num_today := [{| author := JStr "x"; commits_num := 2 |}] |}]
      (ClickHouse.empty_session []))
    as (s' & Hrun & _); [lia|exact accepting_never_fails|].
  exists s'. split; [exact Hrun|].
  vm_compute in Hrun. injection Hrun as <-. reflexivity.
Defined.

Lemma main_saves_what_was_scraped_witness :
  ClickHouse.main server_down ClickHouse.accepting [] 7 8 fresh (ClickHouse.empty_session [])
    = ({| env := (); sent := [SearchRepositories 10] |}, ClickHouse.empty_session []) /\
  exists c' tr,
    ClickHouse.main server_null_language ClickHouse.accepting [] 7 8 fresh
      (ClickHouse.empty_session [])
      = ({| env := (); sent := [SearchRepositories 10; ListCommits (JStr "octo") (JStr "A")] |},
         c') /\
    ClickHouse.effects c' = [] ++ tr /\
    concat (ClickHouse.batches tr) =
      [ClickHouse.RepositoryRow (JStr "A") (JStr "octo") (JNum 5) (JNum 0) (JNum 0)
         (JStr "Unknown") 7;
       ClickHouse.PositionRow 8 (JStr "octo", JStr "A") 1].
Proof.
  split.
  - exact (proj1 (main_saves_what_was_scraped server_down ClickHouse.accepting [] 7 8 fresh
                    (ClickHouse.empty_session [])) _ _ eq_refl).
  - exact (proj2 (main_saves_what_was_scraped server_null_language ClickHouse.accepting
                    [] 7 8 fresh (ClickHouse.empty_session [])) _ _ eq_refl
             accepting_never_fails).
Defined.

(** * More on [gather] and [get_repositories] *)

Section GatherLog.
Context {St T A R : Type} (run : T -> St -> A * St) (out : St -> list R) (req : T -> R).
Hypothesis run_logs : forall t s, out (run t s).2 = out s ++ [req t].

(** Each pending task leaves its own entry in the log, in the order in which
    the tasks ran. *)
Lemma run_pending_log n : forall sched (pending : list (nat * T)) s,
  (length pending <= n)%nat ->
  exists order,
    order ≡ₚ map snd pending /\
    out (run_pending run n sched pending s).2 = out s ++ map req order.
Proof.
  induction n as [|n IH]; intros sched pending s Hn.
  - destruct pending; [|simpl in Hn; lia]. exists []. by rewrite app_nil_r.
  - destruct pending as [|first rest].
    { exists []. by rewrite app_nil_r. }
    cbn [run_pending]. remember (first :: rest) as pending eqn:Hp.
    set (k := (hd 0%nat sched `mod` length pending)%nat).
    assert (k < length pending)%nat as Hk.
    { apply Nat.mod_upper_bound. by rewrite Hp. }
    destruct (lookup_lt_is_Some_2 pending k Hk) as [[i task] Hlook].
    rewrite (nth_lookup_Some _ _ first _ Hlook).
    pose proof (run_logs task s) as Hlog.
    destruct (run task s) as [a s1].
    destruct (IH (tl sched) (delete k pending) s1) as (order & Hperm & Hout).
    { rewrite length_delete by eauto. lia. }
    destruct (run_pending run n (tl sched) (delete k pending) s1) as [finished s2].
    exists (task :: order). cbn [fst snd] in *. split.
    + rewrite (delete_Permutation pending k (i, task) Hlook). simpl. by constructor.
    + rewrite Hout, Hlog, <- app_assoc. done.
Qed.

Lemma gather_log sched (tasks : list T) s :
  exists order,
    order ≡ₚ tasks /\
    out (gather run sched tasks s).2 = out s ++ map req order.
Proof.
  unfold gather.
  destruct (run_pending_log (length tasks) sched (imap pair tasks) s) as (order & Hperm & Hout).
  { by rewrite length_imap. }
  destruct (run_pending run (length tasks) sched (imap pair tasks) s) as [finished s'].
  exists order. split; [|done]. rewrite Hperm.
  change (map snd (imap pair tasks)) with (snd <$> imap pair tasks).
  rewrite fmap_imap, (imap_ext _ (const id)) by done.
  by rewrite imap_const, list_fmap_id.
Qed.
End GatherLog.

Section ScrapperMore.
Context {world : Type} (srv : server world).
Implicit Types (s : state world) (sched : list nat) (limit : Z) (records : list json).

Local Abbreviation fetch_task :=
  (fun t : json * json => _make_request srv (ListCommits t.1 t.2)).

Lemma make_request_logged req s :
  (forall w, exists w', rate_acquire srv w = (Ok (), w')) ->
  sent (_make_request srv req s).2 = sent s ++ [req].
Proof.
  intros Hok. unfold _make_request. destruct (Hok (env s)) as [w ->].
  by destruct (session_request srv req w).
Qed.

Lemma read_record_task p record entry :
  read_record p record = Ok entry -> entry.2 = (d_owner entry.1, d_name entry.1).
Proof.
  unfold read_record, mbind, result_bind, py_get.
  destruct record as [| | | | |d]; try done.
  destruct (from_option id (JDict []) (dict_lookup "owner" d)); try done.
  by intros [= <-].
Qed.

Lemma read_records_tasks records : forall p data tasks,
  read_records p records = Ok (data, tasks) ->
  tasks = map (fun rd => (d_owner rd, d_name rd)) data.
Proof.
  induction records as [|r records IH]; intros p data tasks; simpl.
  - by intros [= <- <-].
  - unfold mbind, result_bind.
    destruct (read_record p r) as [entry|] eqn:E; [|done].
    destruct (read_records (p + 1) records) as [[data' tasks']|] eqn:E'; [|done].
    intros [= <- <-]. simpl. by rewrite (read_record_task _ _ _ E), (IH _ _ _ E').
Qed.

Lemma read_record_raises p record e :
  read_record p record = Raise e -> e = AttributeError.
Proof.
  unfold read_record, mbind, result_bind, py_get.
  destruct record as [| | | | |d]; try by intros [= <-].
  destruct (from_option id (JDict []) (dict_lookup "owner" d)); by intros [= <-].
Qed.

Lemma read_record_unreadable p record :
  ~ readable_record record -> read_record p record = Raise AttributeError.
Proof.
  intros Hno. destruct (read_record p record) as [entry|e] eqn:E.
  - exfalso. apply Hno. revert E.
    unfold readable_record, read_record, mbind, result_bind, py_get.
    destruct record as [| | | | |d]; try done.
    by destruct (dict_lookup "owner" d) as [[| | | | |o]|].
  - by rewrite (read_record_raises _ _ _ E).
Qed.

Lemma read_records_unreadable records : forall p,
  Exists (fun record => ~ readable_record record) records ->
  read_records p records = Raise AttributeError.
Proof.
  induction records as [|r records IH]; intros p Hex; [by apply Exists_nil in Hex|].
  simpl. unfold mbind, result_bind.
  destruct (read_record p r) as [entry|e] eqn:E.
  - apply Exists_cons in Hex as [Hr|Hrest].
    + by rewrite (read_record_unreadable p r Hr) in E.
    + by rewrite (IH (p + 1) Hrest).
  - by rewrite (read_record_raises _ _ _ E).
Qed.

Lemma zip_with_assemble_requests data (cs : list (result (list RepositoryAuthorCommitsNum))) :
  length cs = length data ->
  map (fun r => ListCommits (owner r) (name r)) (zip_with assemble data cs)
    = map (fun rd => ListCommits (d_owner rd) (d_name rd)) data.
Proof.
  revert cs. induction data as [|rd data IH]; intros [|c cs] Hlen; simpl in *; try done.
  rewrite IH; [done|lia].
Qed.

(** X8. When the rate limiter never raises, a run that returns has sent the
    listing request first and then exactly one commit request per
    repository of the batch, addressed to that repository's owner and name,
    in the order in which the tasks ran. *)
Theorem one_commit_request_per_repository sched limit s batch s' :
  (forall w, exists w', rate_acquire srv w = (Ok (), w')) ->
  get_repositories srv sched limit s = (Ok batch, s') ->
  exists commit_requests,
    sent s' = sent s ++ SearchRepositories limit :: commit_requests /\
    commit_requests ≡ₚ map (fun r => ListCommits (owner r) (name r)) batch.
Proof.
  intros Hok Hrun.
  destruct (run_cases srv sched limit s)
    as [(top & s1 & records & data & tasks & Htop & Hiter & Hread)|(e & s1 & Hraise & _)];
    [|by rewrite Hraise in Hrun].
  destruct (get_repositories_read srv sched limit s _ _ _ _ _ Htop Hiter Hread)
    as (_ & _ & Hshape).
  rewrite Hshape in Hrun. injection Hrun as <- <-.
  destruct (read_records_lookup _ _ _ _ Hread) as (Hd & Ht & _).
  assert (sent s1 = sent s ++ [SearchRepositories limit]) as Hfirst.
  { unfold _get_top_repositories in Htop.
    pose proof (make_request_logged (SearchRepositories limit) s Hok) as Hlog.
    destruct (_make_request srv (SearchRepositories limit) s) as [r s0].
    by injection Htop as _ <-. }
  destruct (gather_log fetch_task sent (fun t : json * json => ListCommits t.1 t.2)
              (fun t s0 => make_request_logged _ s0 Hok) sched tasks s1)
    as (order & Hperm & Hsent).
  exists (map (fun t : json * json => ListCommits t.1 t.2) order). split.
  - rewrite Hsent, Hfirst, <- app_assoc. done.
  - rewrite Hperm, zip_with_assemble_requests
      by (rewrite length_map, gather_length; lia).
    rewrite (read_records_tasks _ _ _ _ Hread), map_map. done.
Qed.

(** X9. One record the first loop cannot read (not an object, or with an
    [owner] that is neither absent nor an object) makes the whole run raise
    [AttributeError]; the run ends in the state the listing call left, so
    no commit request is sent, not even for the records before it. *)
Theorem one_unreadable_record_fails_the_run sched limit s records s1 :
  _get_top_repositories srv limit s = (Ok (JList records), s1) ->
  Exists (fun record => ~ readable_record record) records ->
  get_repositories srv sched limit s = (Raise AttributeError, s1).
Proof.
  intros Htop Hex. unfold get_repositories. rewrite Htop. simpl.
  by rewrite (read_records_unreadable records 1 Hex).
Qed.

(** X10. When [items] is not a list: null, a number or a boolean make the
    run raise [TypeError]; a string or an object are iterated, which raises
    [AttributeError] at the first character or key and gives the empty
    batch when there is none. No commit request is sent in any of these
    cases. *)
Theorem items_that_are_not_a_list sched limit s top s1 :
  _get_top_repositories srv limit s = (Ok top, s1) ->
  (forall records, top <> JList records) ->
  get_repositories srv sched limit s =
    (match top with
     | JStr EmptyString | JDict [] => Ok []
     | JStr _ | JDict _ => Raise AttributeError
     | _ => Raise TypeError
     end, s1).
Proof.
  intros Htop Hnot. unfold get_repositories. rewrite Htop.
  destruct top as [|b|z|str|l|d]; try done.
  - by destruct str.
  - by destruct (Hnot l).
  - by destruct d.
Qed.

Lemma batch_lookup_record sched limit s batch s' i r :
  get_repositories srv sched limit s = (Ok batch, s') ->
  batch !! i = Some r ->
  exists record entry c,
    listed srv limit s !! i = Some record /\
    read_record (1 + Z.of_nat i) record = Ok entry /\
    r = assemble entry.1 c.
Proof.
  intros Hrun Hi.
  destruct (run_cases srv sched limit s)
    as [(top & s1 & records & data & tasks & Htop & Hiter & Hread)|(e & s1 & Hraise & _)];
    [|by rewrite Hraise in Hrun].
  destruct (get_repositories_read srv sched limit s _ _ _ _ _ Htop Hiter Hread)
    as (Hlisted & _ & Hshape).
  rewrite Hshape in Hrun. injection Hrun as <- <-. rewrite Hlisted.
  destruct (read_records_lookup _ _ _ _ Hread) as (Hd & Ht & Hl).
  apply lookup_zip_with_Some in Hi as (rd & c & -> & Hrd & _).
  destruct (lookup_lt_is_Some_2 records i) as [record Hrec].
  { apply lookup_lt_Some in Hrd. lia. }
  destruct (Hl i record Hrec) as (entry & Hentry & Hrd' & _).
  rewrite Hrd in Hrd'. injection Hrd' as ->. by exists record, entry, c.
Qed.

(** X11. In a run that returns, every field of a [Repository] is the value
    its listing record has under the corresponding key, whatever its type,
    and the default when the key is absent: "" for the name and for the
    owner's login, 0 for the three counts, "Unknown" for the language. *)
Theorem record_fields_pass_through sched limit s batch s' i r d :
  get_repositories srv sched limit s = (Ok batch, s') ->
  batch !! i = Some r ->
  listed srv limit s !! i = Some (JDict d) ->
  name r = from_option id (JStr "") (dict_lookup "name" d) /\
  owner r = match dict_lookup "owner" d with
            | Some (JDict o) => from_option id (JStr "") (dict_lookup "login" o)
            | _ => JStr ""
            end /\
  stars r = from_option id (JNum 0) (dict_lookup "stargazers_count" d) /\
  watchers r = from_option id (JNum 0) (dict_lookup "watchers_count" d) /\
  forks r = from_option id (JNum 0) (dict_lookup "forks_count" d) /\
  language r = from_option id (JStr "Unknown") (dict_lookup "language" d).
Proof.
  intros Hrun Hi Hrec.
  destruct (batch_lookup_record _ _ _ _ _ _ _ Hrun Hi) as (record & entry & c & Hrec' & Hread & ->).
  rewrite Hrec in Hrec'. injection Hrec' as <-. revert Hread.
  unfold read_record, mbind, result_bind, py_get.
  destruct (dict_lookup "owner" d) as [[| | | | |o]|]; simpl; try done;
    by intros [= <-].
Qed.
End ScrapperMore.

(** * More on the commit aggregation *)

Section AggregationMore.
Implicit Types (d : list (json * Z)) (names : list json).

Local Abbreviation tally names d := (foldl (fun acc n => incr n acc) d names).
Local Abbreviation pairs out :=
  (map (fun r : RepositoryAuthorCommitsNum => (author r, commits_num r)) out).



Lemma counted_names_perm commits commits' :
  commits ≡ₚ commits' ->
  forall names, counted_names commits = Ok names ->
  exists names', counted_names commits' = Ok names' /\ names ≡ₚ names'.
Proof.
  induction 1 as [|x l l' Hperm IH|x y l|l1 l2 l3 H12 IH12 H23 IH23]; intros names; simpl.
  - intros [= <-]. by exists [].
  - destruct (commit_author x) as [[n|]|e]; [| |done].
    + destruct (hashable n); [|done].
      destruct (counted_names l) as [ns|] eqn:E; [|done]. simpl. intros [= <-].
      destruct (IH ns eq_refl) as (ns' & -> & Hns). simpl.
      exists (n :: ns'). split; [done|by constructor].
    + apply IH.
  - destruct (commit_author x) as [[n|]|e]; destruct (commit_author y) as [[m|]|e'];
      try done;
      repeat match goal with |- context [hashable ?k] => destruct (hashable k) end;
      try done;
      destruct (counted_names l) as [ns|]; simpl; try done;
      intros [= <-]; eexists; (split; [done|]); try done.
    apply perm_swap.
  - intros (names2 & H2 & Hp2)%IH12. destruct (IH23 _ H2) as (names3 & H3 & Hp3).
    exists names3. split; [done|by etrans].
Qed.

Lemma occurrences_perm a names names' :
  names ≡ₚ names' -> occurrences a names = occurrences a names'.
Proof. intros Hperm. unfold occurrences. by rewrite Hperm. Qed.

Lemma count_of_pairs a d :
  count_of a (pairs (map (fun ac : json * Z => {| author := ac.1; commits_num := ac.2 |}) d))
    = count_of a d.
Proof.
  induction d as [|[k c] d IH]; simpl; [done|]. by rewrite IH.
Qed.

Lemma count_by_author_counts commits names :
  counted_names commits = Ok names ->
  exists out,
    count_by_author commits = Ok out /\
    (forall a, count_of a (pairs out) = occurrences a names) /\
    total out = Z.of_nat (length names) /\
    map author out = first_seen names.
Proof.
  intros Hn. unfold count_by_author. rewrite (count_loop_tally _ _ [] Hn). simpl.
  eexists. split; [done|]. split_and!.
  - intros a. rewrite count_of_pairs, count_of_tally. simpl. lia.
  - rewrite total_records, total_tally. simpl. lia.
  - rewrite map_map. simpl. change (fun x : json * Z => x.1) with (@fst json Z).
    rewrite tally_fst. simpl. apply filter_all. intros m ?%elem_of_nil. done.
Qed.

(** X13. The counts do not depend on the order of the events: for two lists
    with the same events in a different order, every author has the same
    number of commits in both results, and the results have the same
    length. *)
Theorem counts_do_not_depend_on_event_order commits commits' out :
  commits ≡ₚ commits' ->
  count_by_author commits = Ok out ->
  exists out',
    count_by_author commits' = Ok out' /\
    (forall a, count_of a (pairs out') = count_of a (pairs out)) /\
    total out' = total out.
Proof.
  intros Hperm Hout.
  assert (exists names, counted_names commits = Ok names) as [names Hn].
  { unfold count_by_author in Hout.
    destruct (count_loop commits []) as [d|] eqn:E; [|done].
    destruct (count_loop_names _ _ _ E) as (names & Hn & _). by exists names. }
  destruct (counted_names_perm _ _ Hperm _ Hn) as (names' & Hn' & Hp).
  destruct (count_by_author_counts _ _ Hn) as (out0 & Hout0 & Hc & Ht & _).
  destruct (count_by_author_counts _ _ Hn') as (out' & Hout' & Hc' & Ht' & _).
  rewrite Hout0 in Hout. injection Hout as <-.
  exists out'. split_and!; [done| |].
  - intros a. by rewrite Hc, Hc', (occurrences_perm a _ _ Hp).
  - by rewrite Ht, Ht', Hp.
Qed.

Lemma first_seen_length names : (length (first_seen names) <= length names)%nat.
Proof.
  induction names as [|n names IH]; simpl; [done|].
  pose proof (length_filter (fun m => key_of m <> key_of n) (first_seen names)). lia.
Qed.

Lemma length_omap_le {B C} (f : B -> option C) (l : list B) :
  (length (omap f l) <= length l)%nat.
Proof.
  induction l as [|x l IH]; csimpl; [done|]. destruct (f x); simpl; lia.
Qed.

Lemma length_omap_all {B C} (f : B -> option C) (l : list B) :
  Forall (fun x => is_Some (f x)) l -> length (omap f l) = length l.
Proof.
  induction 1 as [|x l [y Hy] Hl IH]; csimpl; [done|]. rewrite Hy. simpl. by rewrite IH.
Qed.

(** X14. The result never has more authors, nor more commits in total, than
    there are events; and when every event carries a non-empty
    [commit.author] object, every event is counted: the counts add up to the
    number of events. *)
Theorem counts_bounded_by_events commits out :
  count_by_author commits = Ok out ->
  (length out <= length commits)%nat /\
  0 <= total out <= Z.of_nat (length commits) /\
  (Forall (fun event => is_Some (named_author event)) commits ->
   total out = Z.of_nat (length commits)).
Proof.
  intros Hout.
  assert (exists names, counted_names commits = Ok names) as [names Hn].
  { unfold count_by_author in Hout.
    destruct (count_loop commits []) as [d|] eqn:E; [|done].
    destruct (count_loop_names _ _ _ E) as (names & Hn & _). by exists names. }
  destruct (count_by_author_counts _ _ Hn) as (out0 & Hout0 & _ & Ht & Ha).
  rewrite Hout0 in Hout. injection Hout as <-.
  pose proof (counted_names_named _ _ Hn) as Hnames.
  pose proof (length_omap_le named_author commits) as Hle.
  pose proof (first_seen_length names) as Hfs.
  rewrite <- Hnames in Hle.
  assert (length out0 = length (first_seen names)) as Hlen.
  { by rewrite <- Ha, length_map. }
  split_and!; [lia|lia|lia|].
  intros Hall. rewrite Ht, Hnames, length_omap_all; done.
Qed.
End AggregationMore.

Section MalformedEvents.
Context {world : Type} (srv : server world).


End MalformedEvents.


Lemma counts_do_not_depend_on_event_order_witness :
  let commits := [event_by "x"; event_by "y"; event_by "x"] in
  let commits' := [event_by "y"; event_by "x"; event_by "x"] in
  let out := [{| author := JStr "x"; commits_num := 2 |};
              {| author := JStr "y"; commits_num := 1 |}] in
  commits ≡ₚ commits' /\
  exists out',
    count_by_author commits' = Ok out' /\
    (forall a,
       count_of a (map (fun r => (author r, commits_num r)) out')
         = count_of a (map (fun r => (author r, commits_num r)) out)) /\
    total out' = total out.
Proof.
  intros commits commits' out.
  assert (commits ≡ₚ commits') as Hperm by apply perm_swap.
  split; [exact Hperm|].
  apply (counts_do_not_depend_on_event_order commits commits' out Hperm). reflexivity.
Defined.

Lemma counts_bounded_by_events_witness :
  let commits := [event_by "x"; event_without_author; event_by "x"] in
  let out := [{| author := JStr "x"; commits_num := 2 |}] in
  count_by_author commits = Ok out /\
  (length out <= length commits)%nat /\
  0 <= total out <= Z.of_nat (length commits).
Proof.
  intros commits out. split; [reflexivity|].
  destruct (counts_bounded_by_events commits out eq_refl) as (Hl & Ht & _).
  split; [exact Hl|exact Ht].
Defined.

(** * More on the rate limiter *)

Section RateLimiterMore.
Import RateLimiter.
Implicit Types (rl : t) (clock : Z) (tk : tick) (ticks : list tick).

(** X15. A limiter built with a limit of zero or less never grants
    anything: the first [acquire] of any sequence raises [IndexError]. *)
Theorem nonpositive_limit_never_grants (limit clock : Z) ticks :
  limit <= 0 ->
  ticks <> [] ->
  acquire_all {| max_requests_per_second := limit; requests := [] |} clock [] ticks
    = Raise IndexError.
Proof.
  intros Hlimit Hne. destruct ticks as [|tk ticks]; [done|]. simpl.
  by rewrite acquire_with_nonpositive_limit_raises.
Qed.

(** X16. Provided the clock does not run backwards and no reading after a
    sleep is earlier than the sleep asked for: with a limit of at least
    one, after any sequence of calls on a new limiter the stored list holds
    at most [max_requests_per_second] timestamps, and they are exactly the
    grants of the last second. *)
Theorem limiter_log_stays_bounded (limit clock : Z) ticks rl' clock' granted :
  1 <= limit ->
  Forall punctual ticks ->
  acquire_all {| max_requests_per_second := limit; requests := [] |} clock [] ticks
    = Ok (rl', clock', granted) ->
  Z.of_nat (length (requests rl')) <= limit /\
  requests rl' = filter (fun a => clock' - second < a) granted /\
  Forall (fun a => clock' - second < a <= clock') (requests rl').
Proof.
  intros Hlimit Hticks Hrun.
  destruct (acquire_all_consistent ticks
              {| max_requests_per_second := limit; requests := [] |} clock [])
    as (rl1 & clock1 & granted1 & Hrun1 & _ & Hmax & Hreq & Hlen & Hpast & _);
    [done|done|apply fresh_consistent; lia|].
  rewrite Hrun in Hrun1. injection Hrun1 as <- <- <-. simpl in Hmax.
  assert (prune clock' granted = filter (fun a => clock' - second < a) granted) as Hp.
  { unfold prune. apply list_filter_iff. intros a. lia. }
  split_and!; [lia|by rewrite Hreq| ].
  rewrite Hreq, Hp. apply Forall_forall. intros a [Ha Hin]%list_elem_of_filter.
  rewrite Forall_forall in Hpast. specialize (Hpast a Hin). simpl in Hpast. lia.
Qed.

(** X17. A call that finds the limit reached asks for the sleep that ends
    exactly when the oldest entry it kept is one second old, so the reading
    it appends is that instant plus the overshoot. When the reading is not
    early the oldest entry is pruned; when it is early the oldest entry
    stays in the list next to the new one. *)
Theorem full_window_waits_for_the_oldest rl clock tk oldest rest :
  prune (clock + delay tk) (requests rl) = oldest :: rest ->
  max_requests_per_second rl <= Z.of_nat (length (oldest :: rest)) ->
  exists rl',
    acquire rl clock tk = Ok (rl', oldest + second + overshoot tk) /\
    (0 <= overshoot tk ->
       requests rl' =
         prune (oldest + second + overshoot tk) rest ++ [oldest + second + overshoot tk]) /\
    (overshoot tk < 0 ->
       requests rl' =
         oldest :: prune (oldest + second + overshoot tk) rest
           ++ [oldest + second + overshoot tk]).
Proof.
  intros Hkept Hfull. unfold acquire. rewrite Hkept.
  rewrite decide_True by done.
  assert (clock + delay tk - oldest < second) as Hyoung.
  { assert (oldest ∈ prune (clock + delay tk) (requests rl)) as Hin
      by (rewrite Hkept; left).
    unfold prune in Hin. by apply list_elem_of_filter in Hin as [? _]. }
  rewrite decide_True by lia.
  replace (clock + delay tk + (second - (clock + delay tk - oldest)) + overshoot tk)
    with (oldest + second + overshoot tk) by lia.
  eexists. split; [done|]. cbn [requests]. split; intros Hover.
  - f_equal. unfold prune. rewrite filter_cons_False; [done|]. lia.
  - unfold prune. rewrite filter_cons_True; [done|]. lia.
Qed.
End RateLimiterMore.

Lemma nonpositive_limit_never_grants_witness :
  RateLimiter.acquire_all
    {| RateLimiter.max_requests_per_second := 0; RateLimiter.requests := [] |} 0 []
    [{| RateLimiter.delay := 5; RateLimiter.overshoot := 0 |}]
    = Raise IndexError.
Proof. apply (nonpositive_limit_never_grants 0 0); [lia|discriminate]. Defined.

Lemma limiter_log_stays_bounded_witness :
  let ticks := replicate 3 {| RateLimiter.delay := 0; RateLimiter.overshoot := 0 |} in
  let rl' := {| RateLimiter.max_requests_per_second := 2;
                RateLimiter.requests := [1000000] |} in
  Forall RateLimiter.punctual ticks /\
  RateLimiter.acquire_all
    {| RateLimiter.max_requests_per_second := 2; RateLimiter.requests := [] |} 0 [] ticks
    = Ok (rl', 1000000, [0; 0; 1000000]) /\
  Z.of_nat (length (RateLimiter.requests rl')) <= 2.
Proof.
  intros ticks rl'.
  assert (Forall RateLimiter.punctual ticks) as Hticks.
  { unfold ticks. simpl. repeat (apply Forall_cons; split; [split; simpl; lia|]).
    apply Forall_nil_2. }
  split; [exact Hticks|]. split; [reflexivity|].
  apply (limiter_log_stays_bounded 2 0 ticks rl' 1000000 [0; 0; 1000000]);
    [lia|exact Hticks|reflexivity].
Defined.

Lemma full_window_waits_for_the_oldest_witness :
  let rl := {| RateLimiter.max_requests_per_second := 2;
               RateLimiter.requests := [100; 200] |} in
  let tk := {| RateLimiter.delay := 50; RateLimiter.overshoot := 7 |} in
  RateLimiter.prune (300 + RateLimiter.delay tk) (RateLimiter.requests rl) = [100; 200] /\
  exists rl',
    RateLimiter.acquire rl 300 tk = Ok (rl', 100 + RateLimiter.second + 7) /\
    (0 <= RateLimiter.overshoot tk ->
     RateLimiter.requests rl' =
       RateLimiter.prune (100 + RateLimiter.second + 7) [200]
         ++ [100 + RateLimiter.second + 7]).
Proof.
  intros rl tk. split; [reflexivity|].
  destruct (full_window_waits_for_the_oldest rl 300 tk 100 [200])
    as (rl' & Hrun & Hgone & _); [reflexivity|simpl; lia|].
  exists rl'. split; [exact Hrun|exact Hgone].
Defined.

(** * More on the semaphore around [_make_request] *)

Section GateMore.
Import Gate.
Implicit Types (s : state) (ev : event) (evs : list event) (i : nat).

(** X18. With [max_concurrent_requests = 0] nothing ever happens: no call
    gets a slot, so no event is possible from the start. *)
Theorem zero_slots_block_every_call (n : nat) evs s :
  run (start 0 n) evs = Some s ->
  evs = [] /\ s = start 0 n.
Proof.
  destruct evs as [|ev evs]; simpl; [by intros [= <-]|].
  assert (step (start 0 n) ev = None) as ->; [|done].
  destruct ev as [i|i|i|i|i]; simpl; [done|..];
    unfold move, start; simpl;
    destruct (replicate n Waiting !! i) as [p|] eqn:E; try done;
    apply lookup_replicate in E as [-> _]; done.
Qed.

Lemma count_positive_lookup (l : list pc) q :
  (0 < length (filter (fun x => x = q) l))%nat -> exists j, l !! j = Some q.
Proof.
  intros Hpos. destruct (filter (fun x => x = q) l) as [|x rest] eqn:E; [simpl in Hpos; lia|].
  assert (x ∈ filter (fun x => x = q) l) as Hin by (rewrite E; left).
  apply list_elem_of_filter in Hin as [-> Hin].
  by apply list_elem_of_lookup in Hin.
Qed.

Lemma move_enabled s i from to dv :
  calls s !! i = Some from -> is_Some (move s i from to dv).
Proof. intros Hi. unfold move. rewrite Hi, decide_True by done. by eexists. Qed.

(** X19. With at least one slot the calls never block one another for
    good: in every state that can be reached, as long as some call has not
    left, some step is possible. *)
Theorem gate_never_deadlocks (max : Z) (n : nat) evs s i p :
  1 <= max ->
  run (start max n) evs = Some s ->
  calls s !! i = Some p ->
  ~ finished p ->
  exists ev s', step s ev = Some s'.
Proof.
  intros Hmax Hrun Hi Hleft.
  destruct (run_slots _ _ _ Hrun) as [Hsum Hpos].
  rewrite start_slots in Hsum. simpl in Hsum, Hpos.
  assert (forall j, calls s !! j = Some Holding -> exists ev s', step s ev = Some s') as Hhold.
  { intros j Hj. exists (Cleared j). simpl. by apply move_enabled. }
  assert (forall j, calls s !! j = Some InTransport -> exists ev s', step s ev = Some s')
    as Htrans.
  { intros j Hj. exists (Respond j). simpl. by apply move_enabled. }
  destruct p; [|by eapply Hhold|by eapply Htrans|destruct Hleft; by left
               |destruct Hleft; by right].
  destruct (decide (0 < value s)) as [Hfree|Hnone].
  - exists (Enter i). simpl. rewrite decide_True by done. by apply move_enabled.
  - unfold holders, count in Hsum.
    destruct (decide (0 < length (filter (fun q => q = Holding) (calls s)))%nat) as [Hh|Hh].
    + destruct (count_positive_lookup _ _ Hh) as [j Hj]. by eapply Hhold.
    + destruct (count_positive_lookup (calls s) InTransport) as [j Hj]; [lia|].
      by eapply Htrans.
Qed.
End GateMore.

Lemma zero_slots_block_every_call_witness :
  Gate.run (Gate.start 0 3) [] = Some (Gate.start 0 3) /\
  Gate.run (Gate.start 0 3) [Gate.Enter 0] = None /\
  ([] = @nil Gate.event /\ Gate.start 0 3 = Gate.start 0 3).
Proof.
  split; [reflexivity|]. split; [reflexivity|].
  apply (zero_slots_block_every_call 3 [] (Gate.start 0 3)). reflexivity.
Defined.

Lemma gate_never_deadlocks_witness :
  let s := {| Gate.value := 0; Gate.calls := [Gate.InTransport; Gate.Waiting] |} in
  Gate.run (Gate.start 1 2) [Gate.Enter 0; Gate.Cleared 0]%nat = Some s /\
  exists ev s', Gate.step s ev = Some s'.
Proof.
  intros s. split; [reflexivity|].
  apply (gate_never_deadlocks 1 2 [Gate.Enter 0; Gate.Cleared 0]%nat s 1 Gate.Waiting);
    [lia|reflexivity|reflexivity|].
  intros [H|H]; discriminate H.
Defined.

(** * More runs of the examples *)

Lemma canned_limiter_never_raises listing commits :
  forall w, exists w', rate_acquire (canned listing commits) w = (Ok (), w').
Proof. intros w. by exists w. Qed.

Lemma one_commit_request_per_repository_witness :
  exists batch s' commit_requests,
    get_repositories server_B_fails [2; 0; 1]%nat 3 fresh = (Ok batch, s') /\
    sent s' = sent fresh ++ SearchRepositories 3 :: commit_requests /\
    commit_requests ≡ₚ map (fun r => ListCommits (owner r) (name r)) batch.
Proof.
  destruct (get_repositories server_B_fails [2; 0; 1]%nat 3 fresh) as [[batch|e] s'] eqn:E;
    [|discriminate E].
  destruct (one_commit_request_per_repository server_B_fails [2; 0; 1]%nat 3 fresh batch s'
              (canned_limiter_never_raises _ _) E) as (commit_requests & Hsent & Hperm).
  exists batch, s', commit_requests. split; [reflexivity|]. split; [exact Hsent|exact Hperm].
Defined.

Lemma one_unreadable_record_fails_the_run_witness :
  let records := [record_of "A" owned; JNum 7] in
  let srv := canned (Ok (JDict [("items", JList records)])) (fun _ _ => Ok (JList [])) in
  Exists (fun record => ~ readable_record record) records /\
  get_repositories srv [] 2 fresh
    = (Raise AttributeError, {| env := (); sent := [SearchRepositories 2] |}).
Proof.
  intros records srv.
  assert (Exists (fun record => ~ readable_record record) records) as Hex.
  { right. left. intros H. exact H. }
  split; [exact Hex|].
  apply (one_unreadable_record_fails_the_run srv [] 2 fresh records); [reflexivity|exact Hex].
Defined.

Lemma items_that_are_not_a_list_witness :
  let srv := canned (Ok (JDict [("items", JNull)])) (fun _ _ => Ok (JList [])) in
  get_repositories srv [] 2 fresh
    = (Raise TypeError, {| env := (); sent := [SearchRepositories 2] |}).
Proof.
  intros srv.
  apply (items_that_are_not_a_list srv [] 2 fresh JNull); [reflexivity|discriminate].
Defined.

Lemma record_fields_pass_through_witness :
  exists r s',
    get_repositories server_no_owner_no_name [] 1 fresh = (Ok [r], s') /\
    name r = JStr "" /\ owner r = JStr "" /\ stars r = JNum 5 /\
    watchers r = JNum 0 /\ forks r = JNum 0 /\ language r = JStr "Unknown".
Proof.
  eexists _, _. split; [vm_compute; reflexivity|].
  exact (record_fields_pass_through server_no_owner_no_name [] 1 fresh _ _ 0%nat _
           [("stargazers_count", JNum 5)] eq_refl eq_refl eq_refl).
Defined.
